(** * The RaSTA event system ([src/rasta/c/event_system.c])

    A shallow embedding of the select()-based event loop: the monotonic
    time conversions, the two intrusive doubly linked registries, the
    deadline scheduler [calc_next_timed_event], the readiness multiplexer
    [event_system_sleep] and one iteration of [event_system_start].

    Conventions.
    - [uint64_t] / [evtime_t] values are [Z] in [0, 2^64); every wrapping
      operation of the source is written with [U64.wrap].
    - [int] values (descriptors, [nfds], [select]'s result, the interest
      mask) are [Z].
    - A pointer to an event is [option addr]; [None] is [NULL].  Events
      live in caller-owned memory, a total map from addresses to structs.
    - An [fd_set] is the bit mask ([Z]) of the descriptors it holds.
    - Callbacks are function pointers: their behaviour is given by the
      section variable [invoke]. *)

From Stdlib Require Import ZArith List Bool Lia Arith.
Import ListNotations.
Local Open Scope Z_scope.

(** ** Unsigned 64-bit arithmetic *)

Module U64.

Definition modulus : Z := 2 ^ 64.

(** [UINT64_MAX] *)
Definition max : Z := modulus - 1.

Definition wrap (x : Z) : Z := x mod modulus.

Definition add (a b : Z) : Z := wrap (a + b).

Definition sub (a b : Z) : Z := wrap (a - b).

Definition in_range (x : Z) : Prop := 0 <= x < modulus.

End U64.

(** ** Time conversion *)

(** [struct timeval]: seconds and microseconds, as [select] reads it. *)
Record timeval := { tv_sec : Z; tv_usec : Z }.

(** [struct timespec]: seconds and nanoseconds. *)
Record timespec := { ts_sec : Z; ts_nsec : Z }.

Definition evtime_to_timeval (t : Z) : timeval :=
  {| tv_sec := t / 1000000000; tv_usec := t mod 1000000000 |}.

Definition timeval_to_evtime (t : timespec) : Z :=
  U64.wrap (ts_sec t * 1000000000 + ts_nsec t).

(** The duration a [struct timeval] stands for, in nanoseconds: the second
    member counts microseconds. *)
Definition timeval_duration_ns (tv : timeval) : Z :=
  tv_sec tv * 1000000000 + tv_usec tv * 1000.

(** ** Events and registries *)

(** Addresses of event structs. *)
Abbreviation addr := nat (only parsing).
Definition ptr := option addr.

Definition ptr_eqb (p q : ptr) : bool :=
  match p, q with
  | Some a, Some b => Nat.eqb a b
  | None, None => true
  | _, _ => false
  end.

(** Modelled from the spec: the header [event_system.h] is missing; the
    structs are rebuilt from the members the source file uses.  A
    [timed_event] has an interval and the time of its last call. *)
Record timed_event := {
  te_callback : nat;
  te_carry_data : nat;
  interval : Z;
  last_call : Z;
  te_enabled : bool;
  te_prev : ptr;
  te_next : ptr
}.

(** Modelled from the spec: the header [event_system.h] is missing.  An
    [fd_event] watches the descriptor [fd] for the kinds in [options]. *)
Record fd_event := {
  fe_callback : nat;
  fe_carry_data : nat;
  fd : Z;
  fe_enabled : bool;
  options : Z;
  fe_prev : ptr;
  fe_next : ptr
}.

(** Modelled from the spec: the interest flags of the missing header, one
    bit each (READABLE / WRITABLE / EXCEPTIONAL). *)
Definition EV_READABLE : Z := 1.
Definition EV_WRITABLE : Z := 2.
Definition EV_EXCEPTIONAL : Z := 4.

(** The members both event structs share, with the two stores the
    registry code performs on them. *)
Class Event (A : Type) := {
  callback : A -> nat;
  carry_data : A -> nat;
  enabled : A -> bool;
  prev : A -> ptr;
  next : A -> ptr;
  set_prev : ptr -> A -> A;
  set_next : ptr -> A -> A;
  prev_set_prev : forall p a, prev (set_prev p a) = p;
  next_set_prev : forall p a, next (set_prev p a) = next a;
  prev_set_next : forall p a, prev (set_next p a) = prev a;
  next_set_next : forall p a, next (set_next p a) = p
}.

#[export] Instance timed_event_Event : Event timed_event := {
  callback := te_callback;
  carry_data := te_carry_data;
  enabled := te_enabled;
  prev := te_prev;
  next := te_next;
  set_prev p e :=
    {| te_callback := te_callback e; te_carry_data := te_carry_data e;
       interval := interval e; last_call := last_call e;
       te_enabled := te_enabled e; te_prev := p; te_next := te_next e |};
  set_next p e :=
    {| te_callback := te_callback e; te_carry_data := te_carry_data e;
       interval := interval e; last_call := last_call e;
       te_enabled := te_enabled e; te_prev := te_prev e; te_next := p |};
  prev_set_prev := fun _ _ => eq_refl;
  next_set_prev := fun _ _ => eq_refl;
  prev_set_next := fun _ _ => eq_refl;
  next_set_next := fun _ _ => eq_refl
}.

#[export] Instance fd_event_Event : Event fd_event := {
  callback := fe_callback;
  carry_data := fe_carry_data;
  enabled := fe_enabled;
  prev := fe_prev;
  next := fe_next;
  set_prev p e :=
    {| fe_callback := fe_callback e; fe_carry_data := fe_carry_data e;
       fd := fd e; fe_enabled := fe_enabled e; options := options e;
       fe_prev := p; fe_next := fe_next e |};
  set_next p e :=
    {| fe_callback := fe_callback e; fe_carry_data := fe_carry_data e;
       fd := fd e; fe_enabled := fe_enabled e; options := options e;
       fe_prev := fe_prev e; fe_next := p |};
  prev_set_prev := fun _ _ => eq_refl;
  next_set_prev := fun _ _ => eq_refl;
  prev_set_next := fun _ _ => eq_refl;
  next_set_next := fun _ _ => eq_refl
}.

Definition set_last_call (t : Z) (e : timed_event) : timed_event :=
  {| te_callback := te_callback e; te_carry_data := te_carry_data e;
     interval := interval e; last_call := t;
     te_enabled := te_enabled e; te_prev := te_prev e; te_next := te_next e |}.

Definition set_options (o : Z) (e : fd_event) : fd_event :=
  {| fe_callback := fe_callback e; fe_carry_data := fe_carry_data e;
     fd := fd e; fe_enabled := fe_enabled e; options := o;
     fe_prev := fe_prev e; fe_next := fe_next e |}.

(** [struct timed_event_linked_list_s] / [struct fd_event_linked_list_s] *)
Record linked_list_s := { first : ptr; last : ptr }.

(** Memory holding the structs of one event kind. *)
Definition mem (A : Type) := addr -> A.

Definition store {A : Type} (m : mem A) (p : addr) (v : A) : mem A :=
  fun q => if Nat.eqb q p then v else m q.

(** ** The intrusive doubly linked list *)

Section LinkedList.

Context {A : Type} `{Event A}.

(** "simple linked list add": the body shared by [add_timed_event] and
    [add_fd_event], statement by statement. *)
Definition linked_list_add (m : mem A) (ls : linked_list_s) (event : addr)
  : mem A * linked_list_s :=
  match last ls with
  | Some l =>
      let m1 := store m event (set_prev (Some l) (m event)) in
      let m2 := store m1 event (set_next None (m1 event)) in
      let m3 := store m2 l (set_next (Some event) (m2 l)) in
      (m3, {| first := first ls; last := Some event |})
  | None =>
      let m1 := store m event (set_next None (m event)) in
      let m2 := store m1 event (set_prev None (m1 event)) in
      (m2, {| first := Some event; last := Some event |})
  end.

(** "simple linked list remove": the body shared by [remove_timed_event]
    and [remove_fd_event]. *)
Definition linked_list_remove (m : mem A) (ls : linked_list_s) (event : addr)
  : mem A * linked_list_s :=
  let first1 :=
    if ptr_eqb (first ls) (Some event)
    then match first ls with Some f => next (m f) | None => None end
    else first ls in
  let last1 :=
    if ptr_eqb (last ls) (Some event)
    then match last ls with Some l => prev (m l) | None => None end
    else last ls in
  let m1 :=
    match prev (m event) with
    | Some p => store m p (set_next (next (m event)) (m p))
    | None => m
    end in
  let m2 :=
    match next (m1 event) with
    | Some n => store m1 n (set_prev (prev (m1 event)) (m1 n))
    | None => m1
    end in
  (m2, {| first := first1; last := last1 |}).

(** [for (current = first; current; current = current->next)]: the
    addresses visited, when the walk ends within [fuel] steps. *)
Fixpoint traverse (fuel : nat) (m : mem A) (current : ptr) : option (list addr) :=
  match current with
  | None => Some []
  | Some c =>
      match fuel with
      | O => None
      | S k => option_map (cons c) (traverse k m (next (m c)))
      end
  end.

(** A read-only [for] loop over a registry: [body] either carries the
    loop state on ([inl]) or returns from the function ([inr]). *)
Fixpoint for_each {S R : Type} (body : addr -> A -> S -> S + R)
  (fuel : nat) (m : mem A) (current : ptr) (s : S) : option (S + R) :=
  match current with
  | None => Some (inl s)
  | Some c =>
      match fuel with
      | O => None
      | S k =>
          match body c (m c) s with
          | inl s' => for_each body k m (next (m c)) s'
          | inr r => Some (inr r)
          end
      end
  end.

(** The same loop over the list of visited addresses. *)
Fixpoint fold_events {S R : Type} (body : addr -> A -> S -> S + R)
  (m : mem A) (l : list addr) (s : S) : S + R :=
  match l with
  | [] => inl s
  | c :: l' =>
      match body c (m c) s with
      | inl s' => fold_events body m l' s'
      | inr r => inr r
      end
  end.

(** The pointer to the head of [l], or [q] when [l] is empty; the
    pointer to its last element, or [p]. *)
Definition head_or (l : list addr) (q : ptr) : ptr :=
  match l with
  | [] => q
  | x :: _ => Some x
  end.

Definition last_or (l : list addr) (p : ptr) : ptr :=
  match l with
  | [] => p
  | x :: l' => Some (List.last l' x)
  end.

(** [chain m p l q]: the structs at [l] are linked in this order; the
    first one has [p] as its [prev] and the last one [q] as its [next]. *)
Fixpoint chain (m : mem A) (p : ptr) (l : list addr) (q : ptr) : Prop :=
  match l with
  | [] => True
  | x :: l' =>
      prev (m x) = p /\ next (m x) = head_or l' q /\ chain m (Some x) l' q
  end.

(** [registry m ls l]: the header [ls] and the links in [m] represent the
    registry whose events are, in order, [l]. *)
Definition registry (m : mem A) (ls : linked_list_s) (l : list addr) : Prop :=
  NoDup l /\ first ls = head_or l None /\ last ls = last_or l None /\
  chain m None l None.

End LinkedList.

(** ** The event system and the world the callbacks act on *)

Record event_system := {
  timed_events : linked_list_s;
  fd_events : linked_list_s
}.

(** Everything a callback can reach through its carry data: the structs of
    both event kinds, the event system itself, and the cells [user] of the
    collaborators that own the callbacks. *)
Record world := {
  timed_mem : mem timed_event;
  fd_mem : mem fd_event;
  ev_sys : event_system;
  user : mem Z
}.

Definition with_timed (w : world) (m : mem timed_event) (ls : linked_list_s) : world :=
  {| timed_mem := m; fd_mem := fd_mem w;
     ev_sys := {| timed_events := ls; fd_events := fd_events (ev_sys w) |};
     user := user w |}.

Definition with_fd (w : world) (m : mem fd_event) (ls : linked_list_s) : world :=
  {| timed_mem := timed_mem w; fd_mem := m;
     ev_sys := {| timed_events := timed_events (ev_sys w); fd_events := ls |};
     user := user w |}.

Definition add_timed_event (w : world) (event : addr) : world :=
  let '(m, ls) := linked_list_add (timed_mem w) (timed_events (ev_sys w)) event in
  with_timed w m ls.

Definition remove_timed_event (w : world) (event : addr) : world :=
  let '(m, ls) := linked_list_remove (timed_mem w) (timed_events (ev_sys w)) event in
  with_timed w m ls.

Definition add_fd_event (w : world) (event : addr) (opts : Z) : world :=
  let '(m, ls) := linked_list_add (fd_mem w) (fd_events (ev_sys w)) event in
  with_fd w (store m event (set_options opts (m event))) ls.

Definition remove_fd_event (w : world) (event : addr) : world :=
  let '(m, ls) := linked_list_remove (fd_mem w) (fd_events (ev_sys w)) event in
  with_fd w m ls.

(** Sequences of registry operations on the timed-event registry. *)
Inductive registry_op := OpAdd (e : addr) | OpRemove (e : addr).

Definition apply_op (w : world) (o : registry_op) : world :=
  match o with
  | OpAdd e => add_timed_event w e
  | OpRemove e => remove_timed_event w e
  end.

Definition apply_ops (w : world) (ops : list registry_op) : world :=
  fold_left apply_op ops w.

(** What a sequence of operations does to the list of registered events:
    an add appends, a remove deletes. *)
Definition abstract_op (l : list addr) (o : registry_op) : list addr :=
  match o with
  | OpAdd e => l ++ [e]
  | OpRemove e => List.remove Nat.eq_dec e l
  end.

Definition abstract_ops (l : list addr) (ops : list registry_op) : list addr :=
  fold_left abstract_op ops l.

Definition memb (e : addr) (l : list addr) : bool := existsb (Nat.eqb e) l.

(** A sequence obeys the callers' contract when every add names an event
    that is not registered and every remove one that is. *)
Fixpoint ops_in_contract (l : list addr) (ops : list registry_op) : bool :=
  match ops with
  | [] => true
  | o :: ops' =>
      match o with
      | OpAdd e => negb (memb e l)
      | OpRemove e => memb e l
      end && ops_in_contract (abstract_op l o) ops'
  end.

Definition is_add (o : registry_op) : bool :=
  match o with OpAdd _ => true | OpRemove _ => false end.

Definition count_adds (ops : list registry_op) : nat :=
  length (filter is_add ops).

Definition count_removes (ops : list registry_op) : nat :=
  length (filter (fun o => negb (is_add o)) ops).

(** The registry with no event: both header pointers are [NULL]. *)
Definition empty_list : linked_list_s := {| first := None; last := None |}.

(** ** The deadline scheduler *)

(** The due time [last_call + interval], in [uint64_t] arithmetic. *)
Definition continue_at (ev : timed_event) : Z :=
  U64.add (last_call ev) (interval ev).

(** One pass of the loop body of [calc_next_timed_event].  The loop state
    is [time_to_wait] together with the pointer last stored through
    [next_timed_event] ([None] while nothing was stored).  The out
    parameter is taken to be non-[NULL], as in the one call of the source. *)
Definition calc_body (cur_time : Z) (current : addr) (ev : timed_event)
  (acc : Z * ptr) : (Z * ptr) + (Z * ptr) :=
  let '(time_to_wait, next_timed_event) := acc in
  if negb (enabled ev) then inl acc
  else if continue_at ev <=? cur_time then inr (0, Some current)
  else
    let new_time_to_wait := U64.sub (continue_at ev) cur_time in
    if new_time_to_wait <? time_to_wait
    then inl (new_time_to_wait, Some current)
    else inl acc.

Definition calc_next_timed_event (fuel : nat) (m : mem timed_event)
  (events : linked_list_s) (cur_time : Z) : option (Z * ptr) :=
  match for_each (calc_body cur_time) fuel m (first events) (U64.max, None) with
  | Some (inl acc) => Some acc
  | Some (inr r) => Some r
  | None => None
  end.

(** ** The readiness multiplexer *)

(** The bit mask of the descriptors in the set.  The macros [FD_SET] and
    [FD_ISSET] are defined in C for descriptors in [0, FD_SETSIZE) only,
    and there these definitions are the macros.  Outside that range the
    macros are undefined (they reach another bit, or memory outside the
    set) and the definitions below are not the code: properties of the
    sets assume [enabled_descriptors_valid]. *)
Definition fd_set := Z.

Definition FD_ZERO : fd_set := 0.
Definition FD_SET (d : Z) (s : fd_set) : fd_set := Z.setbit s d.
Definition FD_ISSET (d : Z) (s : fd_set) : bool := Z.testbit s d.

(** [INT_MAX] of the platform, where [int] has 32 bits. *)
Definition INT_MAX : Z := 2147483647.

(** [nfds] is an [int], held here in [Z] without its overflow: the model
    is the code as long as no registered descriptor equals [INT_MAX], for
    which [nfds++] overflows ([no_nfds_overflow]). *)
Definition get_max_nfds_body (current : addr) (ev : fd_event) (nfds : Z) : Z + Z :=
  inl (if nfds <? fd ev then fd ev else nfds).

Definition get_max_nfds (fuel : nat) (m : mem fd_event) (events : linked_list_s)
  : option Z :=
  match for_each get_max_nfds_body fuel m (first events) 0 with
  | Some (inl nfds) => Some (nfds + 1)
  | Some (inr r) => Some r
  | None => None
  end.

(** No registered descriptor makes [nfds++] overflow. *)
Definition no_nfds_overflow (m : mem fd_event) (l : list addr) : Prop :=
  forall e, In e l -> fd (m e) < INT_MAX.

(** The descriptor of every enabled registered event, the only ones
    [FD_SET] and [FD_ISSET] are applied to, is a valid member of an
    [fd_set] of capacity [capacity]. *)
Definition enabled_descriptors_valid (capacity : Z) (m : mem fd_event)
  (l : list addr) : Prop :=
  forall e, In e l -> enabled (m e) = true -> 0 <= fd (m e) < capacity.

Definition watches (ev : fd_event) (kind : Z) : bool :=
  negb (Z.land (options ev) kind =? 0).

Definition prepare_body (current : addr) (ev : fd_event)
  (sets : fd_set * fd_set * fd_set) : (fd_set * fd_set * fd_set) + unit :=
  let '(on_readable, on_writable, on_exception) := sets in
  if enabled ev then
    let on_readable :=
      if watches ev EV_READABLE then FD_SET (fd ev) on_readable else on_readable in
    let on_writable :=
      if watches ev EV_WRITABLE then FD_SET (fd ev) on_writable else on_writable in
    let on_exception :=
      if watches ev EV_EXCEPTIONAL then FD_SET (fd ev) on_exception else on_exception in
    inl (on_readable, on_writable, on_exception)
  else inl sets.

Definition prepare_fd_sets (fuel : nat) (m : mem fd_event) (events : linked_list_s)
  : option (fd_set * fd_set * fd_set) :=
  match for_each prepare_body fuel m (first events) (FD_ZERO, FD_ZERO, FD_ZERO) with
  | Some (inl sets) => Some sets
  | _ => None
  end.

(** The record of callback invocations, oldest first. *)
Inductive fired := FiredTimed (e : addr) | FiredFd (e : addr).

Definition state := (world * list fired)%type.

(** What [select] does: from [nfds], the three sets and the timeout it
    yields its result and the three sets as it leaves them. *)
Definition select_fn :=
  Z -> fd_set -> fd_set -> fd_set -> timeval -> Z * (fd_set * fd_set * fd_set).

Inductive loop_status := Continue | Terminated.

Section EventLoop.

(** The capacity of an [fd_set], a constant of the platform's
    [<sys/select.h>]. *)
Variable FD_SETSIZE : Z.

(** [invoke f d w]: calling the function pointer [f] on the carry data [d]
    in the world [w] yields the world it leaves and the [int] it returns. *)
Variable invoke : nat -> nat -> world -> world * Z.

(** One of the three [if (current->enabled && FD_ISSET(current->fd, set))]
    statements of [handle_fd_events]; the flag tells whether the callback
    returned non-zero, in which case the function returns [-1]. *)
Definition dispatch (set : fd_set) (current : addr) (st : state) : state * bool :=
  let ev := fd_mem (fst st) current in
  if enabled ev && FD_ISSET (fd ev) set then
    let '(w', r) := invoke (callback ev) (carry_data ev) (fst st) in
    ((w', snd st ++ [FiredFd current]), negb (r =? 0))
  else (st, false).

(** [handle_fd_events] yields [Some (-1)] when a callback stopped it and
    [None] when control reaches the end of the function, which has no
    [return] statement there. *)
Fixpoint handle_fd_events (fuel : nat)
  (on_readable on_writable on_exception : fd_set)
  (current : ptr) (st : state) : option (state * option Z) :=
  match current with
  | None => Some (st, None)
  | Some c =>
      match fuel with
      | O => None
      | S k =>
          let '(st1, stop1) := dispatch on_readable c st in
          if stop1 then Some (st1, Some (-1)) else
          let '(st2, stop2) := dispatch on_writable c st1 in
          if stop2 then Some (st2, Some (-1)) else
          let '(st3, stop3) := dispatch on_exception c st2 in
          if stop3 then Some (st3, Some (-1)) else
          handle_fd_events k on_readable on_writable on_exception
            (next (fd_mem (fst st3) c)) st3
      end
  end.

Definition event_system_sleep (fuel : nat) (select : select_fn)
  (time_to_wait : Z) (st : state) : option (state * Z) :=
  let tv := evtime_to_timeval time_to_wait in
  let w := fst st in
  match get_max_nfds fuel (fd_mem w) (fd_events (ev_sys w)) with
  | None => None
  | Some nfds =>
      if FD_SETSIZE <=? nfds then Some (st, -1)
      else
        match prepare_fd_sets fuel (fd_mem w) (fd_events (ev_sys w)) with
        | None => None
        | Some (on_readable, on_writable, on_exception) =>
            let '(result, (on_readable, on_writable, on_exception)) :=
              select nfds on_readable on_writable on_exception tv in
            if result =? -1 then Some (st, -1)
            else
              match handle_fd_events fuel on_readable on_writable on_exception
                      (first (fd_events (ev_sys w))) st with
              | None => None
              | Some (st', _) => Some (st', result)
              end
        end
  end.

(** The tail of the loop body: "fire event and exit in case it returns
    something else than 0", then "update timed_event::last_call".  A
    [next_event] that was never stored is an indeterminate pointer; the
    model gives no result for it. *)
Definition fire_timed_event (next_event : ptr) (cur_time time_to_wait : Z)
  (st : state) : option (state * loop_status) :=
  match next_event with
  | None => None
  | Some e =>
      let ev := timed_mem (fst st) e in
      let '(w', r) := invoke (callback ev) (carry_data ev) (fst st) in
      let log' := snd st ++ [FiredTimed e] in
      if negb (r =? 0) then Some ((w', log'), Terminated)
      else
        let m := timed_mem w' in
        let m' := store m e (set_last_call (U64.add cur_time time_to_wait) (m e)) in
        Some ((with_timed w' m' (timed_events (ev_sys w')), log'), Continue)
  end.

(** One pass of the [while (1)] body of [event_system_start]; [cur_time]
    is what [get_nanotime] returns in this pass and [select] what the
    system call does in it. *)
Definition loop_iteration (fuel : nat) (select : select_fn) (cur_time : Z)
  (st : state) : option (state * loop_status) :=
  let w := fst st in
  match calc_next_timed_event fuel (timed_mem w) (timed_events (ev_sys w)) cur_time with
  | None => None
  | Some (time_to_wait, next_event) =>
      if time_to_wait =? U64.max then
        match event_system_sleep fuel select U64.max st with
        | None => None
        | Some (st', result) =>
            if result =? -1 then Some (st', Terminated) else Some (st', Continue)
        end
      else if negb (time_to_wait =? 0) then
        match event_system_sleep fuel select time_to_wait st with
        | None => None
        | Some (st', result) =>
            if result =? -1 then Some (st', Terminated)
            else if 0 <=? result then Some (st', Continue)
            else fire_timed_event next_event cur_time time_to_wait st'
        end
      else fire_timed_event next_event cur_time time_to_wait st
  end.

(** The stamping loop that opens [event_system_start]. *)
Fixpoint stamp_last_call (fuel : nat) (cur_time : Z) (m : mem timed_event)
  (current : ptr) : option (mem timed_event) :=
  match current with
  | None => Some m
  | Some c =>
      match fuel with
      | O => None
      | S k =>
          let m' := store m c (set_last_call cur_time (m c)) in
          stamp_last_call k cur_time m' (next (m' c))
      end
  end.

(** The [while (1)] loop, run on the clock readings and [select]
    behaviours of its successive passes; the status is [Continue] when
    the loop has consumed all of them and is still running. *)
Fixpoint event_loop (fuel : nat) (passes : list (Z * select_fn)) (st : state)
  : option (state * loop_status) :=
  match passes with
  | [] => Some (st, Continue)
  | (cur_time, select) :: passes' =>
      match loop_iteration fuel select cur_time st with
      | None => None
      | Some (st', Terminated) => Some (st', Terminated)
      | Some (st', Continue) => event_loop fuel passes' st'
      end
  end.

Definition event_system_start (fuel : nat) (start_time : Z)
  (passes : list (Z * select_fn)) (st : state) : option (state * loop_status) :=
  let w := fst st in
  match stamp_last_call fuel start_time (timed_mem w)
          (first (timed_events (ev_sys w))) with
  | None => None
  | Some m => event_loop fuel passes (with_timed w m (timed_events (ev_sys w)), snd st)
  end.

End EventLoop.

(** ** A model of [select] *)

Fixpoint popcount_pos (p : positive) : Z :=
  match p with
  | xH => 1
  | xO q => popcount_pos q
  | xI q => 1 + popcount_pos q
  end.

(** The number of descriptors in an [fd_set]. *)
Definition popcount (s : fd_set) : Z :=
  match s with
  | Zpos p => popcount_pos p
  | _ => 0
  end.

(** What the descriptors are ready for when [select] returns, or that the
    call fails. *)
Record readiness := {
  select_fails : bool;
  readable : fd_set;
  writable : fd_set;
  exceptional : fd_set
}.

(** [select] as POSIX describes it: on failure [-1]; otherwise each set is
    cut down to its ready descriptors below [nfds] and the result is the
    total number of descriptors left in the three sets, [0] on a timeout. *)
Definition posix_select (env : readiness) : select_fn :=
  fun nfds on_readable on_writable on_exception tv =>
    if select_fails env then (-1, (on_readable, on_writable, on_exception))
    else
      let keep (s ready : fd_set) := Z.land (Z.land s ready) (Z.ones nfds) in
      let r := keep on_readable (readable env) in
      let w := keep on_writable (writable env) in
      let e := keep on_exception (exceptional env) in
      (popcount r + popcount w + popcount e, (r, w, e)).

(** ** What the scheduler is expected to compute *)

(** An enabled event whose due time has come. *)
Definition is_due (m : mem timed_event) (now : Z) (e : addr) : bool :=
  enabled (m e) && (continue_at (m e) <=? now).

(** The least of [due time - now] over the enabled events of [l], and
    [UINT64_MAX] when there is none. *)
Fixpoint min_wait (m : mem timed_event) (now : Z) (l : list addr) : Z :=
  match l with
  | [] => U64.max
  | e :: l' =>
      if enabled (m e)
      then Z.min (continue_at (m e) - now) (min_wait m now l')
      else min_wait m now l'
  end.

(** An enabled event that has to wait exactly [v]. *)
Definition waits (m : mem timed_event) (now v : Z) (e : addr) : bool :=
  enabled (m e) && (continue_at (m e) - now =? v).

(** ** What the multiplexer is expected to compute *)

(** The value of [nfds] when the loop of [get_max_nfds] has run over [l]. *)
Fixpoint highest_fd (m : mem fd_event) (l : list addr) (nfds : Z) : Z :=
  match l with
  | [] => nfds
  | e :: l' => highest_fd m l' (if nfds <? fd (m e) then fd (m e) else nfds)
  end.

(** ** The clock, enabling, disabling and rescheduling *)

(** [get_nanotime]: [clock] is what [clock_gettime(CLOCK_MONOTONIC)]
    stores. *)
Definition get_nanotime (clock : timespec) : Z := timeval_to_evtime clock.

Definition set_timed_enabled (b : bool) (e : timed_event) : timed_event :=
  {| te_callback := te_callback e; te_carry_data := te_carry_data e;
     interval := interval e; last_call := last_call e;
     te_enabled := b; te_prev := te_prev e; te_next := te_next e |}.

Definition set_fd_enabled (b : bool) (e : fd_event) : fd_event :=
  {| fe_callback := fe_callback e; fe_carry_data := fe_carry_data e;
     fd := fd e; fe_enabled := b; options := options e;
     fe_prev := fe_prev e; fe_next := fe_next e |}.

Definition reschedule_event (clock : timespec) (w : world) (event : addr) : world :=
  let m := timed_mem w in
  with_timed w (store m event (set_last_call (get_nanotime clock) (m event)))
    (timed_events (ev_sys w)).

Definition enable_timed_event (clock : timespec) (w : world) (event : addr) : world :=
  let m := timed_mem w in
  let w1 := with_timed w (store m event (set_timed_enabled true (m event)))
              (timed_events (ev_sys w)) in
  reschedule_event clock w1 event.

Definition disable_timed_event (w : world) (event : addr) : world :=
  let m := timed_mem w in
  with_timed w (store m event (set_timed_enabled false (m event)))
    (timed_events (ev_sys w)).

Definition enable_fd_event (w : world) (event : addr) : world :=
  let m := fd_mem w in
  with_fd w (store m event (set_fd_enabled true (m event))) (fd_events (ev_sys w)).

Definition disable_fd_event (w : world) (event : addr) : world :=
  let m := fd_mem w in
  with_fd w (store m event (set_fd_enabled false (m event))) (fd_events (ev_sys w)).

(** A clock reading in normal form, small enough for the signed
    arithmetic of [timeval_to_evtime] not to overflow. *)
Definition normal_timespec (t : timespec) : Prop :=
  0 <= ts_sec t /\ 0 <= ts_nsec t < 1000000000 /\
  ts_sec t * 1000000000 + ts_nsec t < 2 ^ 63.

(** ** What the dispatch is expected to do *)

(** Some enabled event of [l] watches descriptor [d] for [kind]. *)
Definition watched (m : mem fd_event) (l : list addr) (kind d : Z) : bool :=
  existsb (fun e => enabled (m e) && watches (m e) kind && (fd (m e) =? d)) l.

(** The callbacks one fd-event receives for the sets [select] left: one
    per set that holds its descriptor, in the order readable, writable,
    exceptional, and none when it is disabled. *)
Definition firings (on_readable on_writable on_exception : fd_set)
  (m : mem fd_event) (e : addr) : list fired :=
  if enabled (m e) then
    (if FD_ISSET (fd (m e)) on_readable then [FiredFd e] else []) ++
    (if FD_ISSET (fd (m e)) on_writable then [FiredFd e] else []) ++
    (if FD_ISSET (fd (m e)) on_exception then [FiredFd e] else [])
  else [].

(** What one [if] statement of [handle_fd_events] records for event [c]. *)
Definition fires_for (m : mem fd_event) (set : fd_set) (c : addr) : list fired :=
  if enabled (m c) && FD_ISSET (fd (m c)) set then [FiredFd c] else [].

(** The callback of event [e] asks the loop to go on and leaves the
    fd-event structs as they are ([m0] holds the structs when the
    dispatch starts). *)
Definition keeps_going (invoke : nat -> nat -> world -> world * Z)
  (m0 : mem fd_event) (e : addr) : Prop :=
  forall w : world,
    snd (invoke (callback (m0 e)) (carry_data (m0 e)) w) = 0 /\
    forall a, fd_mem (fst (invoke (callback (m0 e)) (carry_data (m0 e)) w)) a
              = fd_mem w a.


(** The least interval of the enabled events of [l], [UINT64_MAX] when
    there is none. *)
Fixpoint min_interval (m : mem timed_event) (l : list addr) : Z :=
  match l with
  | [] => U64.max
  | e :: l' =>
      if enabled (m e) then Z.min (interval (m e)) (min_interval m l')
      else min_interval m l'
  end.

(** The members of a struct that are not links. *)
Definition timed_payload (ev : timed_event) : nat * nat * Z * Z * bool :=
  (te_callback ev, te_carry_data ev, interval ev, last_call ev, te_enabled ev).

Definition fd_payload (ev : fd_event) : nat * nat * Z * bool :=
  (fe_callback ev, fe_carry_data ev, fd ev, fe_enabled ev).

(** Callbacks that do nothing and ask the loop to go on. *)
Definition quiet_callbacks : nat -> nat -> world -> world * Z :=
  fun _ _ w => (w, 0).

(** ** Concrete events and worlds *)

(** A disabled, unlinked struct of each kind, a world whose registries are
    empty, and builders for enabled events, used to run the model. *)
Definition idle_timed_event : timed_event :=
  {| te_callback := 0; te_carry_data := 0; interval := 0; last_call := 0;
     te_enabled := false; te_prev := None; te_next := None |}.

Definition idle_fd_event : fd_event :=
  {| fe_callback := 0; fe_carry_data := 0; fd := 0; fe_enabled := false;
     options := 0; fe_prev := None; fe_next := None |}.

Definition empty_world : world :=
  {| timed_mem := fun _ => idle_timed_event;
     fd_mem := fun _ => idle_fd_event;
     ev_sys := {| timed_events := empty_list; fd_events := empty_list |};
     user := fun _ => 0 |}.

Definition timer (f : nat) (period called : Z) (on : bool) : timed_event :=
  {| te_callback := f; te_carry_data := 0; interval := period; last_call := called;
     te_enabled := on; te_prev := None; te_next := None |}.

Definition watcher (f : nat) (d : Z) (on : bool) : fd_event :=
  {| fe_callback := f; fe_carry_data := 0; fd := d; fe_enabled := on;
     options := 0; fe_prev := None; fe_next := None |}.

(** Place a struct in memory, as its owner does before registering it. *)
Definition place_timed (w : world) (a : addr) (ev : timed_event) : world :=
  with_timed w (store (timed_mem w) a ev) (timed_events (ev_sys w)).

Definition place_fd (w : world) (a : addr) (ev : fd_event) : world :=
  with_fd w (store (fd_mem w) a ev) (fd_events (ev_sys w)).

(** Callbacks that leave the world alone and return their own function
    pointer: pointer [0] continues, any other stops the loop. *)
Definition returns_own_pointer : nat -> nat -> world -> world * Z :=
  fun f _ w => (w, Z.of_nat f).

(** The restriction the registry property states on its own: removes name
    registered events, adds are unconstrained. *)
Fixpoint removes_registered (l : list addr) (ops : list registry_op) : bool :=
  match ops with
  | [] => true
  | o :: ops' =>
      match o with
      | OpAdd _ => true
      | OpRemove e => memb e l
      end && removes_registered (abstract_op l o) ops'
  end.

(** A [select] that times out: no descriptor is left in any set and the
    result is 0. *)
Definition timeout_select : select_fn :=
  fun _ _ _ _ _ => (0, (FD_ZERO, FD_ZERO, FD_ZERO)).

Definition both_readable : readiness :=
  {| select_fails := false; readable := 24; writable := 0; exceptional := 0 |}.

Definition readable_and_writable : readiness :=
  {| select_fails := false; readable := 8; writable := 8; exceptional := 0 |}.

Definition only_readable : readiness :=
  {| select_fails := false; readable := 8; writable := 0; exceptional := 0 |}.

Definition outcome {R : Type} (r : option (state * R)) : option (list fired * R) :=
  match r with
  | Some ((_, log), x) => Some (log, x)
  | None => None
  end.

(** A single enabled timer, interval 10, stamped at time 0; no fd-event. *)
Definition one_timer : world :=
  add_timed_event (place_timed empty_world 1%nat (timer 0 10 0 true)) 1%nat.

(** Three timers: event 1 is disabled, events 2 and 3 are due at 30 and
    at 20. *)
Definition three_timers : world :=
  let w := place_timed empty_world 1%nat (timer 0 5 0 false) in
  let w := place_timed w 2%nat (timer 0 30 0 true) in
  let w := place_timed w 3%nat (timer 0 20 0 true) in
  add_timed_event (add_timed_event (add_timed_event w 1%nat) 2%nat) 3%nat.

(** A timer last called at [2^64 - 5] with an interval of 10. *)
Definition late_timer : world :=
  add_timed_event
    (place_timed empty_world 1%nat (timer 0 10 (U64.max - 4) true)) 1%nat.

(** Two watchers of descriptors 3 and 4 for readability; the callback of
    the first one (function pointer 1) asks the loop to stop. *)
Definition stopping_watcher : world :=
  let w := place_fd empty_world 1%nat (watcher 1 3 true) in
  let w := place_fd w 2%nat (watcher 0 4 true) in
  add_fd_event (add_fd_event w 1%nat EV_READABLE) 2%nat EV_READABLE.

(** Two fd-events on descriptor 3: event 1 watches readability only,
    event 2 writability only. *)
Definition shared_descriptor : world :=
  let w := place_fd empty_world 1%nat (watcher 0 3 true) in
  let w := place_fd w 2%nat (watcher 0 3 true) in
  add_fd_event (add_fd_event w 1%nat EV_READABLE) 2%nat EV_WRITABLE.

(** Two fd-events, both watching descriptor 3 for readability. *)
Definition two_readers : world :=
  let w := place_fd empty_world 1%nat (watcher 0 3 true) in
  let w := place_fd w 2%nat (watcher 0 3 true) in
  add_fd_event (add_fd_event w 1%nat EV_READABLE) 2%nat EV_READABLE.

(** A disabled fd-event on descriptor 1023 and an enabled one on
    descriptor 3, with [FD_SETSIZE = 1024]. *)
Definition parked_watcher : world :=
  let w := place_fd empty_world 1%nat (watcher 0 1023 false) in
  let w := place_fd w 2%nat (watcher 0 3 true) in
  add_fd_event (add_fd_event w 1%nat EV_READABLE) 2%nat EV_READABLE.

(** * Properties *)

(** ** Arithmetic modulo [2^64] *)

Module U64Facts.

Import U64.

Lemma wrap_range (x : Z) : in_range (wrap x).
Proof. unfold in_range, wrap, modulus. apply Z.mod_pos_bound. reflexivity. Qed.

Lemma wrap_small (x : Z) : in_range x -> wrap x = x.
Proof. unfold in_range, wrap. intros H. now apply Z.mod_small. Qed.

Lemma add_range (a b : Z) : in_range (add a b).
Proof. apply wrap_range. Qed.

Lemma add_le_max (a b : Z) : add a b <= max.
Proof. pose proof (add_range a b) as H. unfold in_range, max in *. lia. Qed.

Lemma sub_small (a b : Z) : 0 <= b -> b <= a -> a < modulus -> sub a b = a - b.
Proof. intros. unfold sub. apply wrap_small. unfold in_range. lia. Qed.

(** When the mathematical sum leaves the 64-bit range, the wrapped sum is
    the sum minus [2^64], which lies strictly below the first operand. *)
Lemma add_overflow (a b : Z) :
  in_range a -> in_range b -> modulus <= a + b ->
  add a b = a + b - modulus /\ add a b < a.
Proof.
  unfold in_range, add, wrap. intros Ha Hb Hov.
  assert (E : (a + b) mod modulus = a + b - modulus).
  { symmetry. apply Z.mod_unique with (q := 1); lia. }
  rewrite E. lia.
Qed.

End U64Facts.

(** ** Pointers and memory *)

Lemma ptr_eqb_spec (p q : ptr) : ptr_eqb p q = true <-> p = q.
Proof.
  destruct p as [a|], q as [b|]; simpl; try (split; congruence).
  rewrite Nat.eqb_eq. split; congruence.
Qed.

Lemma store_same {A : Type} (m : mem A) (p : addr) (v : A) :
  store m p v p = v.
Proof. unfold store. now rewrite Nat.eqb_refl. Qed.

Lemma store_other {A : Type} (m : mem A) (p q : addr) (v : A) :
  q <> p -> store m p v q = m q.
Proof. unfold store. intros H. apply Nat.eqb_neq in H. now rewrite H. Qed.


(** ** Segments of a registry *)

Section LinkedListFacts.

Context {A : Type} `{Event A}.

Lemma chain_frame (m m' : mem A) (l : list addr) (p q : ptr) :
  (forall x, In x l -> prev (m' x) = prev (m x) /\ next (m' x) = next (m x)) ->
  chain m p l q -> chain m' p l q.
Proof.
  revert p. induction l as [|x l IH]; simpl; intros p Hsame Hc; [exact I|].
  destruct Hc as (Hp & Hn & Hc).
  destruct (Hsame x (or_introl eq_refl)) as [Ep En].
  rewrite Ep, En. repeat split; trivial.
  apply IH; auto.
Qed.

Lemma last_cons (l : list addr) (x y : addr) :
  List.last (y :: l) x = List.last l y.
Proof.
  revert x y. induction l as [|a l IH]; intros x y; [reflexivity|].
  change (List.last (y :: a :: l) x) with (List.last (a :: l) x).
  now rewrite !IH.
Qed.

Lemma last_or_app (l1 l2 : list addr) (p : ptr) :
  last_or (l1 ++ l2) p = last_or l2 (last_or l1 p).
Proof.
  destruct l2 as [|y l2].
  - now rewrite app_nil_r.
  - destruct l1 as [|x l1]; [reflexivity|].
    cbn [last_or app]. f_equal.
    revert x. induction l1 as [|z l1 IH]; intros x.
    + apply last_cons.
    + cbn [app]. rewrite last_cons. apply IH.
Qed.

Lemma head_or_app (l1 l2 : list addr) (q : ptr) :
  head_or (l1 ++ l2) q = head_or l1 (head_or l2 q).
Proof. destruct l1; reflexivity. Qed.

Lemma chain_app (m : mem A) (l1 l2 : list addr) (p q : ptr) :
  chain m p (l1 ++ l2) q <->
  chain m p l1 (head_or l2 q) /\ chain m (last_or l1 p) l2 q.
Proof.
  revert p. induction l1 as [|x l1 IH]; intros p; simpl.
  - tauto.
  - rewrite IH, head_or_app.
    assert (E : last_or l1 (Some x) = Some (List.last l1 x)).
    { destruct l1 as [|y l1]; [reflexivity|].
      cbn [last_or]. now rewrite last_cons. }
    rewrite E. tauto.
Qed.

Lemma last_or_In (l : list addr) (p : ptr) (x : addr) :
  l <> [] -> last_or l p = Some x -> In x l.
Proof.
  destruct l as [|y l]; [congruence|]. intros _. cbn [last_or]. intros E.
  injection E as <-. clear. revert y. induction l as [|z l IH]; intros y.
  - now left.
  - right. rewrite last_cons. apply IH.
Qed.

(** Pointing the [next] of the last struct of a segment elsewhere. *)
Lemma chain_redirect_next (m : mem A) (l : list addr) (p q q' : ptr) (x : addr) :
  NoDup l -> last_or l None = Some x -> chain m p l q ->
  chain (store m x (set_next q' (m x))) p l q'.
Proof.
  revert p. induction l as [|y l IH]; intros p Hnd Hlast Hc; [exact I|].
  destruct Hc as (Hp & Hn & Hc). apply NoDup_cons_iff in Hnd as [Hnotin Hnd'].
  change (prev (store m x (set_next q' (m x)) y) = p /\
          next (store m x (set_next q' (m x)) y) = head_or l q' /\
          chain (store m x (set_next q' (m x))) (Some y) l q').
  destruct l as [|z l].
  - simpl in Hlast. injection Hlast as <-.
    rewrite store_same, prev_set_next, next_set_next. simpl. auto.
  - assert (Hlast' : last_or (z :: l) None = Some x).
    { cbn [last_or] in *. now rewrite last_cons in Hlast. }
    assert (Hx : In x (z :: l)).
    { apply last_or_In with (p := None); [discriminate|]. exact Hlast'. }
    assert (y <> x) by (intros ->; contradiction).
    rewrite store_other by assumption.
    split; [exact Hp|]. split; [exact Hn|].
    apply IH; trivial.
Qed.

(** Pointing the [prev] of the first struct of a segment elsewhere. *)
Lemma chain_redirect_prev (m : mem A) (l : list addr) (p p' q : ptr) (x : addr) :
  NoDup l -> head_or l None = Some x -> chain m p l q ->
  chain (store m x (set_prev p' (m x))) p' l q.
Proof.
  destruct l as [|y l]; simpl; intros Hnd Hhd Hc; [exact I|].
  injection Hhd as ->. destruct Hc as (Hp & Hn & Hc).
  apply NoDup_cons_iff in Hnd as [Hnotin Hnd'].
  rewrite store_same, prev_set_prev, next_set_prev.
  repeat split; trivial.
  apply chain_frame with (m := m); trivial.
  intros z Hz. assert (z <> x) by (intros ->; contradiction).
  now rewrite store_other.
Qed.

Lemma traverse_chain (m : mem A) (l : list addr) (p : ptr) (fuel : nat) :
  chain m p l None -> (length l <= fuel)%nat ->
  traverse fuel m (head_or l None) = Some l.
Proof.
  revert p fuel. induction l as [|x l IH]; intros p fuel Hc Hlen; simpl.
  - now destruct fuel.
  - destruct fuel as [|k]; [simpl in Hlen; lia|].
    destruct Hc as (_ & Hn & Hc). simpl. rewrite Hn.
    rewrite (IH (Some x) k); trivial. simpl in Hlen. lia.
Qed.

Lemma for_each_chain {S R : Type} (body : addr -> A -> S -> S + R)
  (m : mem A) (l : list addr) (p : ptr) (fuel : nat) (s : S) :
  chain m p l None -> (length l <= fuel)%nat ->
  for_each body fuel m (head_or l None) s = Some (fold_events body m l s).
Proof.
  revert p fuel s. induction l as [|x l IH]; intros p fuel s Hc Hlen; simpl.
  - now destruct fuel.
  - destruct fuel as [|k]; [simpl in Hlen; lia|].
    destruct Hc as (_ & Hn & Hc). simpl.
    destruct (body x (m x) s) as [s'|r]; [|reflexivity].
    rewrite Hn. apply (IH (Some x)); trivial. simpl in Hlen. lia.
Qed.

Lemma NoDup_app_inv (l1 l2 : list addr) :
  NoDup (l1 ++ l2) ->
  NoDup l1 /\ NoDup l2 /\ (forall x, In x l1 -> ~ In x l2).
Proof.
  induction l1 as [|x l1 IH]; simpl; intros Hnd.
  - repeat split; [constructor|assumption|tauto].
  - apply NoDup_cons_iff in Hnd as [Hnotin Hnd'].
    destruct (IH Hnd') as (H1 & H2 & H3).
    repeat split; trivial.
    + constructor; trivial. intros Hin. apply Hnotin, in_or_app. now left.
    + intros y [<- | Hy] Hy2; [apply Hnotin, in_or_app; now right|].
      exact (H3 y Hy Hy2).
Qed.

Lemma remove_not_in (e : addr) (l : list addr) :
  ~ In e l -> List.remove Nat.eq_dec e l = l.
Proof. intros Hn. now apply notin_remove. Qed.

Lemma remove_middle (e : addr) (l1 l2 : list addr) :
  ~ In e l1 -> ~ In e l2 ->
  List.remove Nat.eq_dec e (l1 ++ e :: l2) = l1 ++ l2.
Proof.
  intros H1 H2. rewrite remove_app. simpl.
  destruct (Nat.eq_dec e e) as [_|Hne]; [|congruence].
  now rewrite !remove_not_in.
Qed.

(** Appending: [linked_list_add] of an event that is not registered. *)
Lemma linked_list_add_registry (m : mem A) (ls : linked_list_s)
  (l : list addr) (e : addr) :
  registry m ls l -> ~ In e l ->
  registry (fst (linked_list_add m ls e)) (snd (linked_list_add m ls e)) (l ++ [e]).
Proof.
  intros (Hnd & Hfirst & Hlast & Hc) Hnotin.
  assert (Hnd' : NoDup (l ++ [e])).
  { apply NoDup_app; trivial.
    - repeat constructor. simpl. tauto.
    - intros x Hx [<- | []]. contradiction. }
  unfold linked_list_add. rewrite Hlast.
  destruct l as [|y l].
  - simpl. repeat split; trivial; simpl.
    + now rewrite store_same, prev_set_prev.
    + now rewrite store_same, next_set_prev, store_same, next_set_next.
  - set (x := List.last l y).
    assert (Hx : In x (y :: l)).
    { apply last_or_In with (p := None); [discriminate|reflexivity]. }
    assert (Hxe : x <> e) by (intros ->; contradiction).
    cbn [last_or fst snd]. fold x.
    split; [exact Hnd'|]. split; [exact Hfirst|]. split.
    + now rewrite last_or_app.
    + apply chain_app. split.
      * simpl head_or.
        apply chain_redirect_next with (q := None); trivial.
        apply chain_frame with (m := m); trivial.
        intros z Hz. assert (z <> e) by (intros ->; contradiction).
        now rewrite !store_other.
      * cbn [chain head_or last_or]. fold x.
        assert (Hex : e <> x) by congruence.
        rewrite (store_other _ x e) by exact Hex.
        rewrite !store_same, prev_set_next, next_set_next, prev_set_prev.
        auto.
Qed.

(** Detaching: [linked_list_remove] of a registered event. *)
Lemma linked_list_remove_registry (m : mem A) (ls : linked_list_s)
  (l : list addr) (e : addr) :
  registry m ls l -> In e l ->
  registry (fst (linked_list_remove m ls e)) (snd (linked_list_remove m ls e))
    (List.remove Nat.eq_dec e l).
Proof.
  intros (Hnd & Hfirst & Hlast & Hc) Hin.
  destruct (in_split _ _ Hin) as (l1 & l2 & ->).
  destruct (NoDup_app_inv _ _ Hnd) as (Hnd1 & Hnd2' & Hdisj).
  apply NoDup_cons_iff in Hnd2' as [He2 Hnd2].
  assert (He1 : ~ In e l1).
  { intros Hi. apply (Hdisj e Hi). now left. }
  rewrite remove_middle by assumption.
  apply chain_app in Hc. destruct Hc as (Hc1 & Hpe & Hne & Hc2).
  simpl head_or in Hc1.
  unfold linked_list_remove. cbn [fst snd first last].
  rewrite Hpe, Hne.
  (* the memory after the two conditional stores *)
  set (m1 := match last_or l1 None with
             | Some p => store m p (set_next (head_or l2 None) (m p))
             | None => m end).
  assert (Hm1e : m1 e = m e).
  { unfold m1. destruct l1 as [|a l1]; [reflexivity|]. cbn [last_or].
    apply store_other. intros ->. apply He1.
    apply last_or_In with (p := None); [discriminate|reflexivity]. }
  rewrite Hm1e, Hpe, Hne.
  set (m2 := match head_or l2 None with
             | Some n => store m1 n (set_prev (last_or l1 None) (m1 n))
             | None => m1 end).
  assert (Hc1' : chain m2 None l1 (head_or l2 None)).
  { apply chain_frame with (m := m1).
    - intros z Hz. unfold m2. destruct l2 as [|b l2]; [auto|]. cbn [head_or].
      assert (z <> b). { intros ->. apply (Hdisj b Hz). right. now left. }
      now rewrite store_other.
    - unfold m1. destruct l1 as [|a l1]; [exact I|]. cbn [last_or].
      apply chain_redirect_next with (q := Some e); trivial. }
  assert (Hc2' : chain m2 (last_or l1 None) l2 None).
  { unfold m2. destruct l2 as [|b l2]; [exact I|]. cbn [head_or].
    apply chain_redirect_prev with (p := Some e); trivial.
    apply chain_frame with (m := m); trivial.
    intros z Hz. unfold m1. destruct l1 as [|a l1]; [auto|]. cbn [last_or].
    assert (z <> List.last l1 a).
    { intros ->. apply (Hdisj (List.last l1 a)).
      - apply last_or_In with (p := None); [discriminate|reflexivity].
      - now right. }
    now rewrite store_other. }
  split; [|split; [|split]].
  - apply NoDup_app; trivial. intros x Hx1 Hx2. apply (Hdisj x Hx1). now right.
  - cbn [first]. rewrite Hfirst, !head_or_app. cbn [head_or].
    destruct l1 as [|a l1]; cbn [head_or ptr_eqb].
    + now rewrite Nat.eqb_refl.
    + assert (Hae : a <> e) by (intros ->; apply He1; now left).
      apply Nat.eqb_neq in Hae. now rewrite Hae.
  - cbn [last]. rewrite Hlast, !last_or_app.
    destruct l2 as [|b l2]; cbn [last_or].
    + cbn [List.last ptr_eqb]. rewrite Nat.eqb_refl. exact Hpe.
    + rewrite last_cons.
      destruct (ptr_eqb (Some (List.last l2 b)) (Some e)) eqn:E; [|reflexivity].
      apply ptr_eqb_spec in E. injection E as E. exfalso. apply He2.
      rewrite <- E. apply last_or_In with (p := None); [discriminate|reflexivity].
  - apply chain_app. split; assumption.
Qed.

End LinkedListFacts.

(** ** The registries of the event system *)

Lemma memb_In (e : addr) (l : list addr) : memb e l = true <-> In e l.
Proof.
  unfold memb. rewrite existsb_exists. split.
  - intros (x & Hx & E). apply Nat.eqb_eq in E. now subst.
  - intros Hin. exists e. split; trivial. apply Nat.eqb_refl.
Qed.

Lemma memb_not_In (e : addr) (l : list addr) : memb e l = false <-> ~ In e l.
Proof.
  rewrite <- memb_In. destruct (memb e l); split; congruence.
Qed.

Lemma add_timed_event_registry (w : world) (l : list addr) (e : addr) :
  registry (timed_mem w) (timed_events (ev_sys w)) l -> ~ In e l ->
  let w' := add_timed_event w e in
  registry (timed_mem w') (timed_events (ev_sys w')) (l ++ [e]).
Proof.
  intros Hreg Hnotin. unfold add_timed_event.
  pose proof (linked_list_add_registry _ _ _ _ Hreg Hnotin) as Hadd.
  destruct (linked_list_add (timed_mem w) (timed_events (ev_sys w)) e) as [m ls].
  exact Hadd.
Qed.

Lemma remove_timed_event_registry (w : world) (l : list addr) (e : addr) :
  registry (timed_mem w) (timed_events (ev_sys w)) l -> In e l ->
  let w' := remove_timed_event w e in
  registry (timed_mem w') (timed_events (ev_sys w')) (List.remove Nat.eq_dec e l).
Proof.
  intros Hreg Hin. unfold remove_timed_event.
  pose proof (linked_list_remove_registry _ _ _ _ Hreg Hin) as Hrem.
  destruct (linked_list_remove (timed_mem w) (timed_events (ev_sys w)) e) as [m ls].
  exact Hrem.
Qed.

Lemma add_fd_event_registry (w : world) (l : list addr) (e : addr) (opts : Z) :
  registry (fd_mem w) (fd_events (ev_sys w)) l -> ~ In e l ->
  let w' := add_fd_event w e opts in
  registry (fd_mem w') (fd_events (ev_sys w')) (l ++ [e]) /\
  options (fd_mem w' e) = opts.
Proof.
  intros Hreg Hnotin. unfold add_fd_event.
  pose proof (linked_list_add_registry _ _ _ _ Hreg Hnotin) as Hadd.
  destruct (linked_list_add (fd_mem w) (fd_events (ev_sys w)) e) as [m ls].
  cbn [fst snd] in Hadd. cbn zeta. cbn [with_fd fd_mem ev_sys fd_events].
  destruct Hadd as (Hnd & Hf & Hl & Hc).
  split; [|now rewrite store_same].
  split; [exact Hnd|]. split; [exact Hf|]. split; [exact Hl|].
  apply chain_frame with (m := m); trivial.
  intros x _. unfold store. destruct (Nat.eqb x e) eqn:E; [|auto].
  apply Nat.eqb_eq in E. subst x. split; reflexivity.
Qed.

Lemma length_remove_registered (e : addr) (l : list addr) :
  NoDup l -> In e l -> S (length (List.remove Nat.eq_dec e l)) = length l.
Proof.
  intros Hnd Hin. destruct (in_split _ _ Hin) as (l1 & l2 & ->).
  destruct (NoDup_app_inv _ _ Hnd) as (_ & Hnd2 & Hdisj).
  apply NoDup_cons_iff in Hnd2 as [He2 _].
  rewrite remove_middle; trivial.
  - rewrite !length_app. simpl. lia.
  - intros Hi. apply (Hdisj e Hi). now left.
Qed.

Lemma apply_op_registry (w : world) (l : list addr) (o : registry_op) :
  registry (timed_mem w) (timed_events (ev_sys w)) l ->
  ops_in_contract l [o] = true ->
  registry (timed_mem (apply_op w o)) (timed_events (ev_sys (apply_op w o)))
    (abstract_op l o) /\
  (length (abstract_op l o) + (if is_add o then 0 else 1)
   = length l + (if is_add o then 1 else 0))%nat.
Proof.
  intros Hreg Hok. cbn [ops_in_contract] in Hok. rewrite andb_true_r in Hok.
  destruct o as [e|e]; cbn [abstract_op is_add apply_op].
  - apply negb_true_iff, memb_not_In in Hok. split.
    + now apply add_timed_event_registry.
    + rewrite length_app. cbn [length]. lia.
  - apply memb_In in Hok. split.
    + now apply remove_timed_event_registry.
    + pose proof (length_remove_registered e l (proj1 Hreg) Hok). lia.
Qed.

Lemma registry_traverse {A : Type} `{Event A} (m : mem A) (ls : linked_list_s)
  (l : list addr) (fuel : nat) :
  registry m ls l -> (length l <= fuel)%nat -> traverse fuel m (first ls) = Some l.
Proof.
  intros (_ & Hf & _ & Hc) Hlen. rewrite Hf. now apply traverse_chain with (p := None).
Qed.

Lemma apply_ops_registry (ops : list registry_op) :
  forall (w : world) (l : list addr),
  registry (timed_mem w) (timed_events (ev_sys w)) l ->
  ops_in_contract l ops = true ->
  registry (timed_mem (apply_ops w ops)) (timed_events (ev_sys (apply_ops w ops)))
    (abstract_ops l ops) /\
  (length (abstract_ops l ops) + count_removes ops = length l + count_adds ops)%nat.
Proof.
  induction ops as [|o ops IH]; intros w l Hreg Hok.
  - simpl. split; [exact Hreg|]. unfold count_removes, count_adds. simpl. lia.
  - cbn [ops_in_contract] in Hok. apply andb_true_iff in Hok as [Ho Hops].
    assert (Ho1 : ops_in_contract l [o] = true).
    { cbn [ops_in_contract]. now rewrite Ho. }
    destruct (apply_op_registry w l o Hreg Ho1) as [Hreg1 Hlen1].
    destruct (IH _ _ Hreg1 Hops) as [Hreg' Hlen'].
    cbn [apply_ops abstract_ops fold_left] in *. split; [exact Hreg'|].
    unfold count_removes, count_adds, abstract_ops in *. cbn [filter].
    destruct (is_add o); cbn [negb length] in *; lia.
Qed.

(** C8 (as amended): for every sequence of [add_timed_event] and
    [remove_timed_event] calls that adds only unregistered events and
    removes only registered ones, started on a well-formed registry, the
    size of the registry is the initial size plus the adds minus the
    removes, the walk from [first] visits exactly the surviving events in
    insertion order, [first] and [last] point to the first and the last
    survivor (whichever position the removed events had), and any
    survivor can be removed and then added again, which puts it at the
    tail. *)
Theorem registry_add_remove_sequences (w : world) (l : list addr)
  (ops : list registry_op) :
  registry (timed_mem w) (timed_events (ev_sys w)) l ->
  ops_in_contract l ops = true ->
  let w' := apply_ops w ops in
  let l' := abstract_ops l ops in
  (length l' + count_removes ops = length l + count_adds ops)%nat /\
  traverse (length l') (timed_mem w') (first (timed_events (ev_sys w'))) = Some l' /\
  first (timed_events (ev_sys w')) = head_or l' None /\
  last (timed_events (ev_sys w')) = last_or l' None /\
  NoDup l' /\
  forall e, In e l' ->
    let w'' := add_timed_event (remove_timed_event w' e) e in
    let l'' := List.remove Nat.eq_dec e l' ++ [e] in
    traverse (length l'') (timed_mem w'') (first (timed_events (ev_sys w''))) = Some l''.
Proof.
  intros Hreg Hok w' l'.
  destruct (apply_ops_registry ops w l Hreg Hok) as [Hreg' Hlen].
  fold w' l' in Hreg', Hlen.
  split; [exact Hlen|]. split; [now apply registry_traverse with (l := l')|].
  split; [apply Hreg'|]. split; [apply Hreg'|]. split; [apply Hreg'|].
  intros e Hin w'' l''.
  apply registry_traverse with (l := l''); [|lia].
  apply add_timed_event_registry.
  - now apply remove_timed_event_registry.
  - apply remove_In.
Qed.

Lemma empty_world_registry :
  registry (timed_mem empty_world) (timed_events (ev_sys empty_world)) [].
Proof. repeat split; constructor. Qed.

Lemma registry_add_remove_sequences_witness :
  let ops := [OpAdd 1; OpAdd 2; OpAdd 3; OpRemove 2; OpAdd 4; OpRemove 1;
              OpRemove 4; OpAdd 2]%nat in
  let w' := apply_ops empty_world ops in
  traverse 2 (timed_mem w') (first (timed_events (ev_sys w'))) = Some [3; 2]%nat.
Proof.
  intros ops w'.
  exact (proj1 (proj2
    (registry_add_remove_sequences empty_world [] ops empty_world_registry eq_refl))).
Defined.

(** C8, the claim as stated fails: a sequence of adds alone, with no
    remove at all, in which an event still registered is added again.
    After add 1, add 2, add 1 the walk from [first] visits event 1 only,
    so the size is 1 and not 3, and event 2 is lost. *)
Lemma registry_size_counterexample :
  let ops := [OpAdd 1; OpAdd 2; OpAdd 1]%nat in
  let w' := apply_ops empty_world ops in
  removes_registered [] ops = true /\
  traverse 8 (timed_mem w') (first (timed_events (ev_sys w'))) = Some [1%nat] /\
  (length [1%nat] <> count_adds ops - count_removes ops)%nat.
Proof. repeat split. vm_compute. discriminate. Qed.

Lemma chain_last_next {A : Type} `{Event A} (m : mem A) (l : list addr)
  (p q : ptr) (x : addr) :
  chain m p l q -> last_or l None = Some x -> next (m x) = q.
Proof.
  revert p. induction l as [|y l IH]; intros p Hc Hx; [discriminate|].
  destruct Hc as (_ & Hn & Hc).
  destruct l as [|z l].
  - cbn [last_or List.last] in Hx. injection Hx as <-. exact Hn.
  - apply (IH (Some y)); trivial.
    cbn [last_or] in *. now rewrite last_cons in Hx.
Qed.

(** What [linked_list_add] does whatever the event is: the order of its
    stores makes the old tail point to the event, also when the event is
    the old tail itself. *)
Lemma linked_list_add_relinks {A : Type} `{Event A} (m : mem A)
  (ls : linked_list_s) (l : list addr) (e x : addr) :
  registry m ls l -> last_or l None = Some x ->
  next (m x) = None /\
  next (fst (linked_list_add m ls e) x) = Some e /\
  last (snd (linked_list_add m ls e)) = Some e.
Proof.
  intros (Hnd & _ & Hlast & Hc) Hx. split.
  - now apply chain_last_next with (l := l) (p := None).
  - unfold linked_list_add. rewrite Hlast, Hx. cbn [fst snd last].
    now rewrite store_same, next_set_next.
Qed.

(** C9 (as amended): [add_timed_event] and [add_fd_event] perform no
    registration check and have no failure result.  On a well-formed
    registry an event that is not registered is appended at the tail (and
    [add_fd_event] stores the interest mask); an event that is registered
    is not detected: the links are rewritten all the same, the old tail's
    [next] and the header's [last] now pointing to the event. *)
Theorem add_event_unchecked (w : world) (lt lf : list addr) (e : addr) (opts : Z) :
  registry (timed_mem w) (timed_events (ev_sys w)) lt ->
  registry (fd_mem w) (fd_events (ev_sys w)) lf ->
  let wt := add_timed_event w e in
  let wf := add_fd_event w e opts in
  (~ In e lt -> registry (timed_mem wt) (timed_events (ev_sys wt)) (lt ++ [e])) /\
  (~ In e lf -> registry (fd_mem wf) (fd_events (ev_sys wf)) (lf ++ [e]) /\
                options (fd_mem wf e) = opts) /\
  (In e lt -> exists x, last_or lt None = Some x /\
                next (timed_mem w x) = None /\ next (timed_mem wt x) = Some e /\
                last (timed_events (ev_sys wt)) = Some e) /\
  (In e lf -> exists x, last_or lf None = Some x /\
                next (fd_mem w x) = None /\ next (fd_mem wf x) = Some e /\
                last (fd_events (ev_sys wf)) = Some e).
Proof.
  intros Ht Hf wt wf.
  split; [intros Hn; now apply add_timed_event_registry|].
  split; [intros Hn; now apply add_fd_event_registry|].
  split.
  - intros Hin. destruct lt as [|y lt]; [contradiction|].
    exists (List.last lt y). split; [reflexivity|].
    destruct (linked_list_add_relinks _ _ _ e _ Ht eq_refl) as (H1 & H2 & H3).
    split; [exact H1|]. unfold wt, add_timed_event.
    destruct (linked_list_add (timed_mem w) (timed_events (ev_sys w)) e) as [m ls].
    split; [exact H2|exact H3].
  - intros Hin. destruct lf as [|y lf]; [contradiction|].
    exists (List.last lf y). split; [reflexivity|].
    destruct (linked_list_add_relinks _ _ _ e _ Hf eq_refl) as (H1 & H2 & H3).
    split; [exact H1|]. unfold wf, add_fd_event.
    destruct (linked_list_add (fd_mem w) (fd_events (ev_sys w)) e) as [m ls].
    cbn [fst snd] in H2, H3. cbn [with_fd fd_mem ev_sys fd_events].
    split; [|exact H3].
    unfold store. destruct (Nat.eqb (List.last lf y) e) eqn:E; [|exact H2].
    apply Nat.eqb_eq in E. rewrite E in H2. exact H2.
Qed.

Lemma add_event_unchecked_witness :
  let w := add_fd_event (add_timed_event empty_world 1%nat) 1%nat EV_READABLE in
  next (timed_mem (add_timed_event w 1%nat) 1%nat) = Some 1%nat /\
  options (fd_mem (add_fd_event w 2%nat EV_WRITABLE) 2%nat) = EV_WRITABLE.
Proof.
  intros w.
  assert (Ht : registry (timed_mem w) (timed_events (ev_sys w)) [1%nat]).
  { repeat split; repeat constructor; simpl; tauto. }
  assert (Hf : registry (fd_mem w) (fd_events (ev_sys w)) [1%nat]).
  { repeat split; repeat constructor; simpl; tauto. }
  pose proof (add_event_unchecked w [1%nat] [1%nat] 1%nat EV_READABLE Ht Hf) as H1.
  pose proof (add_event_unchecked w [1%nat] [1%nat] 2%nat EV_WRITABLE Ht Hf) as H2.
  split.
  - destruct H1 as (_ & _ & H1 & _).
    destruct (H1 (or_introl eq_refl)) as (x & Hx & _ & Hn & _).
    injection Hx as <-. exact Hn.
  - destruct H2 as (_ & H2 & _).
    apply H2. simpl. intros [E | []]. discriminate.
Defined.

(** C9, the claim as stated fails: adding the registered event again is
    not refused and does not leave the registry unchanged.  The registry
    holding event 1 alone has [next = NULL] in that event; after the
    second add the event is its own successor and the walk from [first]
    never ends.  The same holds for [add_fd_event]. *)
Lemma add_registered_event_counterexample :
  let w := add_fd_event (add_timed_event empty_world 1%nat) 1%nat EV_READABLE in
  let wt := add_timed_event w 1%nat in
  let wf := add_fd_event w 1%nat EV_READABLE in
  (traverse 8 (timed_mem w) (first (timed_events (ev_sys w))) = Some [1%nat] /\
   next (timed_mem w 1%nat) = None /\
   next (timed_mem wt 1%nat) = Some 1%nat /\
   traverse 8 (timed_mem wt) (first (timed_events (ev_sys wt))) = None) /\
  (traverse 8 (fd_mem w) (first (fd_events (ev_sys w))) = Some [1%nat] /\
   next (fd_mem w 1%nat) = None /\
   next (fd_mem wf 1%nat) = Some 1%nat /\
   traverse 8 (fd_mem wf) (first (fd_events (ev_sys wf))) = None).
Proof. repeat split. Qed.

(** ** The deadline scheduler *)

Section Scheduler.

Variable m : mem timed_event.
Variable now : Z.

Lemma continue_at_range (e : addr) : 0 <= continue_at (m e) <= U64.max.
Proof.
  pose proof (U64Facts.add_range (last_call (m e)) (interval (m e))) as H.
  unfold continue_at, U64.in_range, U64.max in *. lia.
Qed.

Lemma min_wait_le_max (l : list addr) : min_wait m now l <= U64.max.
Proof.
  induction l as [|e l IH]; simpl; [lia|].
  destruct (te_enabled (m e)); lia.
Qed.

Lemma min_wait_lower_bound (l : list addr) (e : addr) :
  In e l -> enabled (m e) = true -> min_wait m now l <= continue_at (m e) - now.
Proof.
  induction l as [|x l IH]; simpl; [tauto|].
  intros [-> | Hin] Hen.
  - simpl in Hen. rewrite Hen. lia.
  - specialize (IH Hin Hen). destruct (te_enabled (m x)); lia.
Qed.

Lemma min_wait_no_enabled (l : list addr) :
  (forall e, In e l -> enabled (m e) = false) -> min_wait m now l = U64.max.
Proof.
  induction l as [|x l IH]; simpl; intros Hall; [reflexivity|].
  pose proof (Hall x (or_introl eq_refl)) as Hx. simpl in Hx. rewrite Hx.
  apply IH. intros e He. apply Hall. now right.
Qed.

(** A wait below [UINT64_MAX] is the wait of some enabled event. *)
Lemma min_wait_attained (l : list addr) :
  min_wait m now l < U64.max ->
  exists e, find (waits m now (min_wait m now l)) l = Some e.
Proof.
  induction l as [|x l IH]; simpl; [lia|]. intros Hlt.
  unfold waits at 1. simpl.
  destruct (te_enabled (m x)) eqn:Hen; simpl.
  - destruct (Z.eqb_spec (continue_at (m x) - now)
                (Z.min (continue_at (m x) - now) (min_wait m now l))) as [E|E].
    + now exists x.
    + assert (Hmin : Z.min (continue_at (m x) - now) (min_wait m now l)
                     = min_wait m now l) by lia.
      rewrite Hmin in *. now apply IH.
  - now apply IH.
Qed.

(** The loop of [calc_next_timed_event], started with any [time_to_wait]
    and any stored candidate. *)
Lemma calc_fold (l : list addr) :
  0 <= now -> forall (t : Z) (c : ptr), t <= U64.max ->
  fold_events (calc_body now) m l (t, c) =
  match find (is_due m now) l with
  | Some e => inr (0, Some e)
  | None =>
      inl (Z.min t (min_wait m now l),
           if min_wait m now l <? t
           then find (waits m now (min_wait m now l)) l
           else c)
  end.
Proof.
  intros Hnow. induction l as [|x l IH]; intros t c Ht.
  - simpl. destruct (Z.ltb_spec U64.max t); [lia|].
    now rewrite Z.min_l.
  - cbn [fold_events find min_wait]. unfold calc_body, is_due at 1, waits at 1.
    cbn [enabled timed_event_Event].
    destruct (te_enabled (m x)) eqn:Hen; cbn [negb andb].
    2:{ rewrite IH by exact Ht. destruct (find (is_due m now) l); reflexivity. }
    destruct (Z.leb_spec (continue_at (m x)) now) as [Hdue|Hnot]; [reflexivity|].
    pose proof (continue_at_range x) as Hr.
    rewrite U64Facts.sub_small by (unfold U64.max in Hr; lia).
    set (d := continue_at (m x) - now) in *.
    set (mw := min_wait m now l) in *.
    assert (Hd : d <= U64.max) by (unfold d; lia).
    destruct (Z.ltb_spec d t) as [Hdt|Hdt]; rewrite IH by assumption;
      destruct (find (is_due m now) l) as [e|]; trivial; fold mw.
    + f_equal. f_equal; [lia|].
      destruct (Z.ltb_spec (Z.min d mw) t) as [_|]; [|lia].
      destruct (Z.ltb_spec mw d) as [Hlt|Hge].
      * replace (Z.min d mw) with mw by lia.
        destruct (Z.eqb_spec d mw); [lia|reflexivity].
      * replace (Z.min d mw) with d by lia.
        now rewrite Z.eqb_refl.
    + f_equal. f_equal; [lia|].
      destruct (Z.ltb_spec mw t) as [Hlt|Hge].
      * destruct (Z.ltb_spec (Z.min d mw) t) as [_|]; [|lia].
        replace (Z.min d mw) with mw by lia.
        destruct (Z.eqb_spec d mw); [lia|reflexivity].
      * destruct (Z.ltb_spec (Z.min d mw) t) as [|_]; [lia|reflexivity].
Qed.

(** Up to the first due event the loop state plays no part. *)
Lemma calc_fold_due (l : list addr) (e : addr) :
  find (is_due m now) l = Some e -> forall acc,
  fold_events (calc_body now) m l acc = inr (0, Some e).
Proof.
  induction l as [|x l IH]; intros Hfind [t c]; [discriminate|].
  cbn [fold_events find] in *. unfold calc_body.
  unfold is_due at 1 in Hfind.
  cbn [enabled timed_event_Event] in *.
  destruct (te_enabled (m x)); cbn [negb andb] in *; [|now apply IH].
  destruct (continue_at (m x) <=? now); [now injection Hfind as ->|].
  destruct (U64.sub (continue_at (m x)) now <? t); now apply IH.
Qed.

End Scheduler.

Lemma calc_next_timed_event_fold (m : mem timed_event) (ls : linked_list_s)
  (l : list addr) (fuel : nat) (now : Z) :
  registry m ls l -> (length l <= fuel)%nat ->
  calc_next_timed_event fuel m ls now =
  Some (match fold_events (calc_body now) m l (U64.max, None) with
        | inl acc => acc
        | inr r => r
        end).
Proof.
  intros (_ & Hf & _ & Hc) Hlen. unfold calc_next_timed_event.
  rewrite Hf, (for_each_chain _ _ _ None) by assumption.
  now destruct (fold_events _ _ _ _).
Qed.

Lemma min_wait_pos (m : mem timed_event) (now : Z) (l : list addr) :
  find (is_due m now) l = None -> 0 < min_wait m now l.
Proof.
  induction l as [|x l IH]; simpl; [reflexivity|].
  unfold is_due at 1. simpl.
  destruct (te_enabled (m x)); simpl; [|exact IH].
  destruct (Z.leb_spec (continue_at (m x)) now); [discriminate|].
  intros Hnone. specialize (IH Hnone). lia.
Qed.

(** No enabled event is due: the minimum wait, and the first event that
    has it unless it is [UINT64_MAX]. *)
Lemma calc_next_timed_event_not_due (m : mem timed_event) (ls : linked_list_s)
  (l : list addr) (fuel : nat) (now : Z) :
  registry m ls l -> (length l <= fuel)%nat -> 0 <= now ->
  find (is_due m now) l = None ->
  calc_next_timed_event fuel m ls now =
  Some (min_wait m now l,
        if min_wait m now l <? U64.max
        then find (waits m now (min_wait m now l)) l
        else None).
Proof.
  intros Hreg Hlen Hnow Hnone.
  rewrite (calc_next_timed_event_fold m ls l fuel now Hreg Hlen).
  rewrite calc_fold by (trivial; lia). rewrite Hnone.
  now rewrite Z.min_r by apply min_wait_le_max.
Qed.

(** Some enabled event is due: a zero wait and the first such event. *)
Lemma calc_next_timed_event_due (m : mem timed_event) (ls : linked_list_s)
  (l : list addr) (fuel : nat) (now : Z) (e : addr) :
  registry m ls l -> (length l <= fuel)%nat ->
  find (is_due m now) l = Some e ->
  calc_next_timed_event fuel m ls now = Some (0, Some e).
Proof.
  intros Hreg Hlen Hfind.
  rewrite (calc_next_timed_event_fold m ls l fuel now Hreg Hlen).
  now rewrite (calc_fold_due m now l e Hfind).
Qed.

(** C7 (as amended): on a well-formed registry [calc_next_timed_event]
    looks at enabled events only.  If some enabled event has
    [last_call + interval <= now] (the sum taken in 64 bits) it returns 0
    and stores the first such event in registry order.  Otherwise it
    returns the minimum of [due - now] over the enabled events, and it
    stores the first event with that wait when the minimum is below
    [UINT64_MAX]; when the minimum is [UINT64_MAX] -- in particular when
    no event is enabled -- it returns [UINT64_MAX] and stores nothing. *)
Theorem calc_next_timed_event_spec (m : mem timed_event) (ls : linked_list_s)
  (l : list addr) (fuel : nat) (now : Z) :
  registry m ls l -> (length l <= fuel)%nat -> 0 <= now ->
  exists wait cand,
    calc_next_timed_event fuel m ls now = Some (wait, cand) /\
    match find (is_due m now) l with
    | Some e => wait = 0 /\ cand = Some e
    | None =>
        wait = min_wait m now l /\
        (forall e, In e l -> enabled (m e) = true ->
                   0 < wait <= continue_at (m e) - now) /\
        (wait < U64.max ->
           exists e, cand = Some e /\ find (waits m now wait) l = Some e) /\
        (wait = U64.max -> cand = None) /\
        ((forall e, In e l -> enabled (m e) = false) ->
           wait = U64.max /\ cand = None)
    end.
Proof.
  intros Hreg Hlen Hnow.
  destruct (find (is_due m now) l) as [e|] eqn:Hfind.
  - exists 0, (Some e). split; [|auto].
    now apply calc_next_timed_event_due with (l := l).
  - rewrite (calc_next_timed_event_not_due m ls l fuel now) by assumption.
    eexists _, _. split; [reflexivity|].
    split; [reflexivity|]. split; [|split; [|split]].
    + intros e Hin Hen. split; [now apply min_wait_pos|].
      now apply min_wait_lower_bound.
    + intros Hlt. destruct (Z.ltb_spec (min_wait m now l) U64.max); [|lia].
      destruct (min_wait_attained m now l Hlt) as [e He]. now exists e.
    + intros ->. now rewrite Z.ltb_irrefl.
    + intros Hnone. rewrite (min_wait_no_enabled m now l Hnone).
      now rewrite Z.ltb_irrefl.
Qed.

(** Registries of concrete worlds are checked by evaluation. *)
Ltac concrete_registry :=
  split; [repeat constructor; simpl; lia|];
  split; [reflexivity|]; split; [reflexivity|];
  simpl; repeat split; reflexivity.

Lemma three_timers_registry :
  registry (timed_mem three_timers) (timed_events (ev_sys three_timers)) [1; 2; 3]%nat.
Proof. concrete_registry. Qed.

Lemma calc_next_timed_event_spec_witness :
  calc_next_timed_event 8 (timed_mem three_timers)
    (timed_events (ev_sys three_timers)) 10 = Some (10, Some 3%nat) /\
  calc_next_timed_event 8 (timed_mem three_timers)
    (timed_events (ev_sys three_timers)) 25 = Some (0, Some 3%nat).
Proof.
  split.
  - destruct (calc_next_timed_event_spec (timed_mem three_timers)
                (timed_events (ev_sys three_timers)) [1; 2; 3]%nat 8 10
                three_timers_registry ltac:(simpl; lia) ltac:(lia))
      as (wait & cand & -> & Hspec).
    cbn in Hspec. destruct Hspec as (-> & _ & Hc & _).
    destruct (Hc eq_refl) as (e & -> & He). cbn in He. now injection He as <-.
  - destruct (calc_next_timed_event_spec (timed_mem three_timers)
                (timed_events (ev_sys three_timers)) [1; 2; 3]%nat 8 25
                three_timers_registry ltac:(simpl; lia) ltac:(lia))
      as (wait & cand & -> & Hspec).
    cbn in Hspec. now destruct Hspec as (-> & ->).
Defined.

(** C7, the claim as stated fails: an enabled event whose wait is exactly
    [UINT64_MAX] ([last_call = UINT64_MAX], [interval = 0], [now = 0]) is
    never stored as the candidate, because a wait replaces the running
    minimum only when it is strictly smaller than the initial
    [UINT64_MAX].  The function returns the minimum but no event. *)
Lemma calc_sentinel_counterexample :
  let w := add_timed_event
             (place_timed empty_world 1%nat (timer 0 0 U64.max true)) 1%nat in
  traverse 8 (timed_mem w) (first (timed_events (ev_sys w))) = Some [1%nat] /\
  enabled (timed_mem w 1%nat) = true /\
  is_due (timed_mem w) 0 1%nat = false /\
  continue_at (timed_mem w 1%nat) - 0 = U64.max /\
  calc_next_timed_event 8 (timed_mem w) (timed_events (ev_sys w)) 0
    = Some (U64.max, None).
Proof. repeat split. Qed.

(** C10 (as amended): the due time is computed modulo [2^64].  For an
    enabled event of a well-formed registry whose [last_call] is not
    after [now] and whose [last_call + interval] reaches [2^64], the
    wrapped sum is [last_call + interval - 2^64], which is below
    [last_call] and so not after [now]: the scheduler returns a zero wait
    and stores the first due event in registry order, which is this
    event when no event before it is due. *)
Theorem overflowed_due_time_fires (m : mem timed_event) (ls : linked_list_s)
  (l : list addr) (fuel : nat) (now : Z) (e : addr) :
  registry m ls l -> (length l <= fuel)%nat ->
  In e l -> enabled (m e) = true ->
  U64.in_range (last_call (m e)) -> U64.in_range (interval (m e)) ->
  U64.modulus <= last_call (m e) + interval (m e) ->
  last_call (m e) <= now ->
  continue_at (m e) = last_call (m e) + interval (m e) - U64.modulus /\
  continue_at (m e) <= now /\
  exists first_due,
    find (is_due m now) l = Some first_due /\
    calc_next_timed_event fuel m ls now = Some (0, Some first_due) /\
    (forall l1 l2, l = l1 ++ e :: l2 ->
       (forall x, In x l1 -> is_due m now x = false) -> first_due = e).
Proof.
  intros Hreg Hlen Hin Hen Hlc Hiv Hov Hpast.
  destruct (U64Facts.add_overflow _ _ Hlc Hiv Hov) as [Hsum Hlt].
  fold (continue_at (m e)) in Hsum, Hlt.
  assert (Hdue : is_due m now e = true).
  { unfold is_due. rewrite Hen. apply Z.leb_le. lia. }
  split; [exact Hsum|]. split; [lia|].
  destruct (find (is_due m now) l) as [d|] eqn:Hfind.
  - exists d. split; [reflexivity|]. split.
    + now apply calc_next_timed_event_due with (l := l).
    + intros l1 l2 -> Hbefore.
      assert (Hnone : find (is_due m now) l1 = None).
      { clear - Hbefore. induction l1 as [|x l1 IH]; [reflexivity|]. simpl.
        rewrite (Hbefore x (or_introl eq_refl)). apply IH.
        intros y Hy. apply Hbefore. now right. }
      clear - Hfind Hnone Hdue. induction l1 as [|x l1 IH].
      * simpl in Hfind. rewrite Hdue in Hfind. congruence.
      * simpl in *. destruct (is_due m now x); [discriminate|]. now apply IH.
  - exfalso. apply (find_none _ _ Hfind) in Hin. congruence.
Qed.

Lemma late_timer_registry :
  registry (timed_mem late_timer) (timed_events (ev_sys late_timer)) [1%nat].
Proof. concrete_registry. Qed.

Lemma overflowed_due_time_fires_witness :
  continue_at (timed_mem late_timer 1%nat) = 5 /\
  calc_next_timed_event 8 (timed_mem late_timer)
    (timed_events (ev_sys late_timer)) (U64.max - 2) = Some (0, Some 1%nat).
Proof.
  destruct (overflowed_due_time_fires (timed_mem late_timer)
              (timed_events (ev_sys late_timer)) [1%nat] 8 (U64.max - 2) 1%nat
              late_timer_registry ltac:(simpl; lia) ltac:(now left) eq_refl
              ltac:(vm_compute; split; congruence)
              ltac:(vm_compute; split; congruence)
              ltac:(vm_compute; congruence) ltac:(vm_compute; congruence))
    as (Hsum & _ & d & Hfind & Hcalc & _).
  split; [exact Hsum|].
  cbn in Hfind. injection Hfind as <-. exact Hcalc.
Defined.

(** C10, the claim as stated fails twice.  First, an overflowing event
    whose [last_call] lies after [now] ([last_call = interval =
    UINT64_MAX], [now = 0]): the wrapped sum [2^64 - 2] is above [now], so
    the event is not due and the scheduler waits [2^64 - 2].  Second, an
    overflowing event that is due but registered behind another due
    event: the scheduler selects the earlier one. *)
Lemma overflow_not_due_counterexample :
  (let w := add_timed_event
              (place_timed empty_world 1%nat (timer 0 U64.max U64.max true)) 1%nat in
   U64.modulus <= last_call (timed_mem w 1%nat) + interval (timed_mem w 1%nat) /\
   continue_at (timed_mem w 1%nat) = U64.max - 1 /\
   calc_next_timed_event 8 (timed_mem w) (timed_events (ev_sys w)) 0
     = Some (U64.max - 1, Some 1%nat)) /\
  (let w := place_timed empty_world 1%nat (timer 0 10 0 true) in
   let w := place_timed w 2%nat (timer 0 10 (U64.max - 4) true) in
   let w := add_timed_event (add_timed_event w 1%nat) 2%nat in
   U64.modulus <= last_call (timed_mem w 2%nat) + interval (timed_mem w 2%nat) /\
   is_due (timed_mem w) (U64.max - 2) 2%nat = true /\
   calc_next_timed_event 8 (timed_mem w) (timed_events (ev_sys w)) (U64.max - 2)
     = Some (0, Some 1%nat)).
Proof. repeat split; vm_compute; congruence. Qed.

(** ** The readiness multiplexer *)

Lemma highest_fd_ge_start (m : mem fd_event) (l : list addr) (n : Z) :
  n <= highest_fd m l n.
Proof.
  revert n. induction l as [|e l IH]; intros n; simpl; [lia|].
  specialize (IH (if n <? fd (m e) then fd (m e) else n)).
  destruct (Z.ltb_spec n (fd (m e))); lia.
Qed.

(** Every registered descriptor counts, enabled or not. *)
Lemma highest_fd_upper_bound (m : mem fd_event) (l : list addr) (n : Z) (e : addr) :
  In e l -> fd (m e) <= highest_fd m l n.
Proof.
  revert n. induction l as [|x l IH]; intros n; simpl; [tauto|].
  intros [-> | Hin]; [|now apply IH].
  pose proof (highest_fd_ge_start m l (if n <? fd (m e) then fd (m e) else n)).
  destruct (Z.ltb_spec n (fd (m e))); lia.
Qed.

Lemma get_max_nfds_fold (m : mem fd_event) (l : list addr) (n : Z) :
  fold_events get_max_nfds_body m l n = inl (highest_fd m l n).
Proof.
  revert n. induction l as [|e l IH]; intros n; simpl; [reflexivity|apply IH].
Qed.

Lemma get_max_nfds_registry (m : mem fd_event) (ls : linked_list_s)
  (l : list addr) (fuel : nat) :
  registry m ls l -> (length l <= fuel)%nat ->
  get_max_nfds fuel m ls = Some (highest_fd m l 0 + 1).
Proof.
  intros (_ & Hf & _ & Hc) Hlen. unfold get_max_nfds.
  rewrite Hf, (for_each_chain _ _ _ None) by assumption.
  now rewrite get_max_nfds_fold.
Qed.

Lemma prepare_fold (m : mem fd_event) (l : list addr)
  (sets : fd_set * fd_set * fd_set) :
  exists sets', fold_events prepare_body m l sets = inl sets'.
Proof.
  revert sets. induction l as [|e l IH]; intros [[r w] x]; simpl; [eauto|].
  destruct (fe_enabled (m e)); apply IH.
Qed.

Lemma prepare_fd_sets_registry (m : mem fd_event) (ls : linked_list_s)
  (l : list addr) (fuel : nat) :
  registry m ls l -> (length l <= fuel)%nat ->
  exists sets, prepare_fd_sets fuel m ls = Some sets.
Proof.
  intros (_ & Hf & _ & Hc) Hlen. unfold prepare_fd_sets.
  rewrite Hf, (for_each_chain _ _ _ None) by assumption.
  destruct (prepare_fold m l (FD_ZERO, FD_ZERO, FD_ZERO)) as [sets ->]. eauto.
Qed.

Section EventLoopFacts.

Variable FD_SETSIZE : Z.
Variable invoke : nat -> nat -> world -> world * Z.

Lemma dispatch_nothing_ready (c : addr) (st : state) :
  dispatch invoke FD_ZERO c st = (st, false).
Proof.
  unfold dispatch, FD_ISSET, FD_ZERO. rewrite Z.testbit_0_l.
  now rewrite andb_false_r.
Qed.

(** With no descriptor left in any set, [handle_fd_events] walks the
    registry and calls nothing. *)
Lemma handle_fd_events_nothing_ready (st : state) (l : list addr) (p : ptr)
  (fuel : nat) :
  chain (fd_mem (fst st)) p l None -> (length l <= fuel)%nat ->
  handle_fd_events invoke fuel FD_ZERO FD_ZERO FD_ZERO (head_or l None) st
  = Some (st, None).
Proof.
  revert p fuel. induction l as [|x l IH]; intros p fuel Hc Hlen.
  - now destruct fuel.
  - destruct fuel as [|k]; [simpl in Hlen; lia|].
    destruct Hc as (_ & Hn & Hc).
    cbn [handle_fd_events head_or]. rewrite !dispatch_nothing_ready.
    change (next (fd_mem (fst st) x)) with (fe_next (fd_mem (fst st) x)).
    change (next (fd_mem (fst st) x)) with (fe_next (fd_mem (fst st) x)) in Hn.
    rewrite Hn. apply (IH (Some x)); trivial. simpl in Hlen. lia.
Qed.

(** A bound on all descriptors and on the start value bounds [nfds]. *)
Lemma highest_fd_below (m : mem fd_event) (l : list addr) :
  no_nfds_overflow m l ->
  forall n bound, n < bound -> INT_MAX <= bound -> highest_fd m l n < bound.
Proof.
  induction l as [|e l IH]; intros Hr n bound Hn Hb; simpl; [exact Hn|].
  apply IH; [intros x Hx; apply Hr; now right| |exact Hb].
  pose proof (Hr e (or_introl eq_refl)).
  destruct (n <? fd (m e)); lia.
Qed.

(** The descriptor ceiling: [event_system_sleep] gives up before it
    prepares the sets, calls [select] or calls anything back. *)
Lemma event_system_sleep_ceiling (fuel : nat) (select : select_fn) (t : Z)
  (st : state) (l : list addr) :
  registry (fd_mem (fst st)) (fd_events (ev_sys (fst st))) l ->
  (length l <= fuel)%nat ->
  FD_SETSIZE <= highest_fd (fd_mem (fst st)) l 0 + 1 ->
  event_system_sleep FD_SETSIZE invoke fuel select t st = Some (st, -1).
Proof.
  intros Hreg Hlen Hcap. unfold event_system_sleep.
  rewrite (get_max_nfds_registry _ _ l) by assumption.
  destruct (Z.leb_spec FD_SETSIZE (highest_fd (fd_mem (fst st)) l 0 + 1)); [reflexivity|lia].
Qed.

(** A timed-out [select] below the ceiling: nothing is called, the state
    is untouched and the result is 0. *)
Lemma event_system_sleep_timeout (fuel : nat) (t : Z) (st : state) (l : list addr) :
  registry (fd_mem (fst st)) (fd_events (ev_sys (fst st))) l ->
  (length l <= fuel)%nat ->
  highest_fd (fd_mem (fst st)) l 0 + 1 < FD_SETSIZE ->
  event_system_sleep FD_SETSIZE invoke fuel timeout_select t st = Some (st, 0).
Proof.
  intros Hreg Hlen Hcap. unfold event_system_sleep.
  rewrite (get_max_nfds_registry _ _ l) by assumption.
  destruct (Z.leb_spec FD_SETSIZE (highest_fd (fd_mem (fst st)) l 0 + 1)); [lia|].
  destruct (prepare_fd_sets_registry _ _ l fuel Hreg Hlen) as [[[r w] x] ->].
  cbn [timeout_select Z.eqb].
  destruct Hreg as (_ & Hf & _ & Hc). rewrite Hf.
  now rewrite (handle_fd_events_nothing_ready st l None fuel Hc Hlen).
Qed.

(** C1: the claim does not hold of the code.  In a pass whose scheduled
    wait is not zero, a [select] that times out makes
    [event_system_sleep] return 0, and the loop tests [result >= 0] where
    its comment speaks of an fd event having occurred: the pass ends in
    [continue] with the state exactly as it was.  The candidate's
    callback is not invoked and its [last_call] is not set to
    [cur_time + time_to_wait]. *)
Theorem bounded_wait_timeout_skips_timer (fuel : nat) (st : state)
  (lf : list addr) (cur_time wait : Z) (cand : ptr) :
  registry (fd_mem (fst st)) (fd_events (ev_sys (fst st))) lf ->
  (length lf <= fuel)%nat ->
  highest_fd (fd_mem (fst st)) lf 0 + 1 < FD_SETSIZE ->
  calc_next_timed_event fuel (timed_mem (fst st))
    (timed_events (ev_sys (fst st))) cur_time = Some (wait, cand) ->
  wait <> 0 ->
  loop_iteration FD_SETSIZE invoke fuel timeout_select cur_time st
  = Some (st, Continue).
Proof.
  intros Hf Hlen Hcap Hcalc Hwait. unfold loop_iteration. rewrite Hcalc.
  rewrite !(event_system_sleep_timeout fuel _ st lf Hf Hlen Hcap).
  destruct (wait =? U64.max); [reflexivity|].
  destruct (Z.eqb_spec wait 0); [contradiction|reflexivity].
Qed.

(** C5 (as amended): the ceiling check takes every registered fd-event
    into account, enabled or not and whatever its interest mask: [nfds] is
    the highest registered descriptor (at least 0) plus one.  When [nfds]
    reaches [FD_SETSIZE] -- as soon as one registered event has
    [fd + 1 >= FD_SETSIZE] -- [event_system_sleep] returns [-1] with the
    state and the record of callbacks untouched, and a pass of the loop
    that gets to wait (no timed event is due) terminates the loop.  All
    this for registered descriptors below [INT_MAX], for which [nfds++]
    does not overflow. *)
Theorem descriptor_ceiling_counts_all_events (fuel : nat) (select : select_fn)
  (st : state) (lt lf : list addr) (cur_time time_to_wait : Z) :
  registry (timed_mem (fst st)) (timed_events (ev_sys (fst st))) lt ->
  registry (fd_mem (fst st)) (fd_events (ev_sys (fst st))) lf ->
  (length lt <= fuel)%nat -> (length lf <= fuel)%nat ->
  no_nfds_overflow (fd_mem (fst st)) lf ->
  0 <= cur_time ->
  get_max_nfds fuel (fd_mem (fst st)) (fd_events (ev_sys (fst st)))
    = Some (highest_fd (fd_mem (fst st)) lf 0 + 1) /\
  highest_fd (fd_mem (fst st)) lf 0 + 1 <= INT_MAX /\
  (forall e, In e lf -> fd (fd_mem (fst st) e) < highest_fd (fd_mem (fst st)) lf 0 + 1) /\
  (FD_SETSIZE <= highest_fd (fd_mem (fst st)) lf 0 + 1 ->
     event_system_sleep FD_SETSIZE invoke fuel select time_to_wait st = Some (st, -1) /\
     (find (is_due (timed_mem (fst st)) cur_time) lt = None ->
        loop_iteration FD_SETSIZE invoke fuel select cur_time st
        = Some (st, Terminated))).
Proof.
  intros Ht Hf Hlt Hlf Hrange Hnow.
  split; [now apply get_max_nfds_registry|].
  split; [pose proof (highest_fd_below _ _ Hrange 0 INT_MAX); unfold INT_MAX in *; lia|].
  split.
  { intros e Hin. pose proof (highest_fd_upper_bound (fd_mem (fst st)) lf 0 e Hin). lia. }
  intros Hcap. split; [now apply event_system_sleep_ceiling with (l := lf)|].
  intros Hnone. unfold loop_iteration.
  rewrite (calc_next_timed_event_not_due _ _ lt fuel cur_time Ht Hlt Hnow Hnone).
  rewrite !(event_system_sleep_ceiling fuel select _ st lf Hf Hlf Hcap).
  destruct (min_wait (timed_mem (fst st)) cur_time lt =? U64.max); [reflexivity|].
  pose proof (min_wait_pos _ _ _ Hnone) as Hpos.
  destruct (Z.eqb_spec (min_wait (timed_mem (fst st)) cur_time lt) 0); [lia|reflexivity].
Qed.

End EventLoopFacts.

(** ** Running the loop on concrete worlds *)

Lemma no_fd_event_registry (w : world) :
  fd_events (ev_sys w) = empty_list -> registry (fd_mem w) (fd_events (ev_sys w)) [].
Proof. intros ->. repeat split; constructor. Qed.

Lemma bounded_wait_timeout_skips_timer_witness :
  calc_next_timed_event 8 (timed_mem one_timer) (timed_events (ev_sys one_timer)) 0
    = Some (10, Some 1%nat) /\
  loop_iteration 1024 returns_own_pointer 8 timeout_select 0 (one_timer, [])
    = Some ((one_timer, []), Continue).
Proof.
  split; [reflexivity|].
  apply (bounded_wait_timeout_skips_timer 1024 returns_own_pointer 8
           (one_timer, []) [] 0 10 (Some 1%nat)).
  - now apply no_fd_event_registry.
  - simpl. lia.
  - simpl. lia.
  - reflexivity.
  - lia.
Defined.

(** The timer of [one_timer] is due at 10.  The first pass, at time 0,
    waits 10 and times out without firing it; the callback only runs in
    the next pass, through the zero-wait branch, and [last_call] becomes
    the time read in that pass (13 here), not the intended 10. *)
Lemma timed_out_wait_accumulates_drift :
  match event_loop 1024 returns_own_pointer 8
          [(0, timeout_select); (13, timeout_select)] (one_timer, []) with
  | Some ((w, log), status) =>
      log = [FiredTimed 1%nat] /\ last_call (timed_mem w 1%nat) = 13 /\
      status = Continue
  | None => False
  end.
Proof. vm_compute. repeat split. Qed.

(** C2: the claim does not hold of the code.  Descriptors 3 and 4 are
    both readable and the first callback returns 1.  [handle_fd_events]
    stops at once, the second callback is not invoked, and it returns
    [-1]; but [event_system_sleep] discards that value and returns
    [select]'s result 2, so the pass of the loop ends in [continue]
    instead of terminating. *)
Theorem fd_callback_stop_is_dropped :
  let st := (stopping_watcher, []) in
  outcome (handle_fd_events returns_own_pointer 8 24 0 0
             (first (fd_events (ev_sys stopping_watcher))) st)
    = Some ([FiredFd 1%nat], Some (-1)) /\
  outcome (event_system_sleep 1024 returns_own_pointer 8
             (posix_select both_readable) U64.max st)
    = Some ([FiredFd 1%nat], 2) /\
  outcome (loop_iteration 1024 returns_own_pointer 8
             (posix_select both_readable) 0 st)
    = Some ([FiredFd 1%nat], Continue).
Proof. vm_compute. repeat split. Qed.

(** C3: the claim does not hold of the code.  [prepare_fd_sets] consults
    each event's [options], but [handle_fd_events] tests the returned
    sets by descriptor alone.  With descriptor 3 readable and writable,
    event 1 (readable only) is called back twice, the second time for the
    writable kind it does not watch, and so is event 2. *)
Theorem shared_descriptor_fires_unwatched_kind :
  let w := shared_descriptor in
  (watches (fd_mem w 1%nat) EV_READABLE = true /\
   watches (fd_mem w 1%nat) EV_WRITABLE = false /\
   watches (fd_mem w 2%nat) EV_READABLE = false /\
   watches (fd_mem w 2%nat) EV_WRITABLE = true) /\
  prepare_fd_sets 8 (fd_mem w) (fd_events (ev_sys w)) = Some (8, 8, 0) /\
  outcome (event_system_sleep 1024 returns_own_pointer 8
             (posix_select readable_and_writable) 100 (w, []))
    = Some ([FiredFd 1%nat; FiredFd 1%nat; FiredFd 2%nat; FiredFd 2%nat], 2).
Proof. vm_compute. repeat split. Qed.

(** C6: the claim does not hold of the code.  [event_system_sleep]
    returns [select]'s result, the number of ready descriptors in the
    three sets, not the number of callbacks it made.  With two events on
    the one readable descriptor 3, two callbacks are invoked and the
    function returns 1. *)
Theorem sleep_returns_select_count :
  outcome (event_system_sleep 1024 returns_own_pointer 8
             (posix_select only_readable) 100 (two_readers, []))
    = Some ([FiredFd 1%nat; FiredFd 2%nat], 1).
Proof. vm_compute. reflexivity. Qed.

Lemma parked_watcher_registry :
  registry (fd_mem parked_watcher) (fd_events (ev_sys parked_watcher)) [1; 2]%nat.
Proof. concrete_registry. Qed.

Lemma no_timed_event_registry (w : world) :
  timed_events (ev_sys w) = empty_list ->
  registry (timed_mem w) (timed_events (ev_sys w)) [].
Proof. intros ->. repeat split; constructor. Qed.

Lemma descriptor_ceiling_counts_all_events_witness :
  get_max_nfds 8 (fd_mem parked_watcher) (fd_events (ev_sys parked_watcher))
    = Some 1024 /\
  loop_iteration 1024 returns_own_pointer 8 (posix_select only_readable) 0
    (parked_watcher, []) = Some ((parked_watcher, []), Terminated).
Proof.
  destruct (descriptor_ceiling_counts_all_events 1024 returns_own_pointer 8
              (posix_select only_readable) (parked_watcher, []) [] [1; 2]%nat 0 0
              (no_timed_event_registry parked_watcher eq_refl)
              parked_watcher_registry ltac:(simpl; lia) ltac:(simpl; lia)
              ltac:(intros e [<- | [<- | []]]; reflexivity)
              ltac:(lia))
    as (Hnfds & _ & _ & Hcap).
  split; [exact Hnfds|].
  apply Hcap; [vm_compute; congruence|reflexivity].
Defined.

(** C5, the claim as stated fails: the only enabled fd-event watches
    descriptor 3, so the ceiling computed from enabled, interest-bearing
    events would be 4, far below [FD_SETSIZE = 1024], and descriptor 3 is
    readable.  But the disabled event on descriptor 1023 is counted:
    [nfds] is 1024, the wait fails and no callback is invoked. *)
Lemma disabled_descriptor_counterexample :
  let w := parked_watcher in
  traverse 8 (fd_mem w) (first (fd_events (ev_sys w))) = Some [1; 2]%nat /\
  (enabled (fd_mem w 1%nat) = false /\ fd (fd_mem w 1%nat) = 1023) /\
  (enabled (fd_mem w 2%nat) = true /\ fd (fd_mem w 2%nat) = 3) /\
  get_max_nfds 8 (fd_mem w) (fd_events (ev_sys w)) = Some 1024 /\
  outcome (event_system_sleep 1024 returns_own_pointer 8
             (posix_select only_readable) 100 (w, []))
    = Some ([], -1).
Proof. vm_compute. repeat split. Qed.

(** ** The time conversion *)

(** Read as a [timespec] (seconds, nanoseconds) the pair is exact. *)
Lemma evtime_to_timeval_as_timespec (t : Z) :
  tv_sec (evtime_to_timeval t) * 1000000000 + tv_usec (evtime_to_timeval t) = t.
Proof.
  unfold evtime_to_timeval. cbn [tv_sec tv_usec].
  pose proof (Z.div_mod t 1000000000 ltac:(lia)). lia.
Qed.

(** C4: the claim does not hold of the code.  [evtime_to_timeval] stores
    the nanoseconds below one second in [tv_usec], which [select] reads
    as microseconds: the [timeval] stands for the input plus 999 times
    its sub-second part, so one millisecond becomes one second.  The
    "infinite" timeout [UINT64_MAX] becomes the finite [timeval]
    (18446744073, 709551615). *)
Theorem evtime_to_timeval_duration (t : Z) :
  timeval_duration_ns (evtime_to_timeval t) = t + 999 * (t mod 1000000000) /\
  timeval_duration_ns (evtime_to_timeval 1000000) = 1000000000 /\
  evtime_to_timeval U64.max = {| tv_sec := 18446744073; tv_usec := 709551615 |}.
Proof.
  split; [|split; reflexivity].
  pose proof (evtime_to_timeval_as_timespec t) as H.
  unfold timeval_duration_ns, evtime_to_timeval in *. cbn [tv_sec tv_usec] in *.
  lia.
Qed.

(** * Further properties of the code *)

(** ** The clock *)

Lemma get_nanotime_normal (t : timespec) :
  normal_timespec t -> get_nanotime t = ts_sec t * 1000000000 + ts_nsec t.
Proof.
  intros (Hs & Hn & Hb). unfold get_nanotime, timeval_to_evtime.
  apply U64Facts.wrap_small. unfold U64.in_range, U64.modulus.
  assert (2 ^ 63 < 2 ^ 64) by reflexivity. lia.
Qed.

(** X1: member by member the two conversions undo each other.  A clock
    reading in normal form becomes [sec * 10^9 + nsec] and
    [evtime_to_timeval] splits that number into the same two members;
    conversely a time below [2^63], split by [evtime_to_timeval] and read
    back by [timeval_to_evtime], is unchanged. *)
Theorem clock_conversions_round_trip (t : timespec) (n : Z) :
  normal_timespec t -> 0 <= n < 2 ^ 63 ->
  evtime_to_timeval (get_nanotime t)
    = {| tv_sec := ts_sec t; tv_usec := ts_nsec t |} /\
  timeval_to_evtime {| ts_sec := tv_sec (evtime_to_timeval n);
                       ts_nsec := tv_usec (evtime_to_timeval n) |} = n.
Proof.
  intros Ht Hn. split.
  - rewrite (get_nanotime_normal t Ht). destruct Ht as (Hs & Hns & _).
    unfold evtime_to_timeval. f_equal.
    + symmetry. apply Z.div_unique with (r := ts_nsec t); lia.
    + symmetry. apply Z.mod_unique with (q := ts_sec t); lia.
  - unfold timeval_to_evtime. cbn [ts_sec ts_nsec].
    rewrite evtime_to_timeval_as_timespec.
    apply U64Facts.wrap_small. unfold U64.in_range, U64.modulus.
    assert (2 ^ 63 < 2 ^ 64) by reflexivity. lia.
Qed.

Lemma clock_conversions_round_trip_witness :
  evtime_to_timeval (get_nanotime {| ts_sec := 7; ts_nsec := 250000000 |})
    = {| tv_sec := 7; tv_usec := 250000000 |} /\
  timeval_to_evtime {| ts_sec := tv_sec (evtime_to_timeval 7250000000);
                       ts_nsec := tv_usec (evtime_to_timeval 7250000000) |}
    = 7250000000.
Proof.
  apply (clock_conversions_round_trip {| ts_sec := 7; ts_nsec := 250000000 |}
           7250000000).
  - unfold normal_timespec. cbn [ts_sec ts_nsec]. repeat split; try lia; reflexivity.
  - split; [lia|reflexivity].
Defined.

(** X2: [get_nanotime] keeps the order of clock readings: a reading that
    is not earlier (seconds first, then nanoseconds) gives a time that is
    not smaller, and a later reading a larger time. *)
Theorem get_nanotime_monotone (t1 t2 : timespec) :
  normal_timespec t1 -> normal_timespec t2 ->
  (ts_sec t1 < ts_sec t2 \/ (ts_sec t1 = ts_sec t2 /\ ts_nsec t1 <= ts_nsec t2)) ->
  get_nanotime t1 <= get_nanotime t2 /\
  (get_nanotime t1 = get_nanotime t2 ->
     ts_sec t1 = ts_sec t2 /\ ts_nsec t1 = ts_nsec t2).
Proof.
  intros H1 H2 Hle.
  rewrite (get_nanotime_normal t1 H1), (get_nanotime_normal t2 H2).
  destruct H1 as (? & ? & _), H2 as (? & ? & _). lia.
Qed.

Lemma get_nanotime_monotone_witness :
  get_nanotime {| ts_sec := 7; ts_nsec := 999999999 |}
    <= get_nanotime {| ts_sec := 8; ts_nsec := 0 |}.
Proof.
  apply (get_nanotime_monotone {| ts_sec := 7; ts_nsec := 999999999 |}
           {| ts_sec := 8; ts_nsec := 0 |}).
  - unfold normal_timespec. cbn [ts_sec ts_nsec]. repeat split; try lia; reflexivity.
  - unfold normal_timespec. cbn [ts_sec ts_nsec]. repeat split; try lia; reflexivity.
  - left. cbn [ts_sec]. lia.
Defined.

(** ** The descriptor sets *)

Lemma FD_ISSET_FD_SET (n d : Z) (s : fd_set) :
  0 <= d -> FD_ISSET d (FD_SET n s) = (n =? d) || FD_ISSET d s.
Proof.
  intros Hd. unfold FD_ISSET, FD_SET.
  destruct (Z.leb_spec 0 n) as [Hn|Hn].
  - now apply Z.setbit_eqb.
  - unfold Z.setbit. rewrite Z.lor_spec, Z.shiftl_spec by exact Hd.
    destruct (Z.eqb_spec n d); [lia|].
    replace (Z.testbit 1 (d - n)) with false; [now rewrite orb_false_r|].
    symmetry. apply (Z.bits_above_log2 1 (d - n)); simpl; lia.
Qed.

Lemma FD_ISSET_negative (d : Z) (s : fd_set) : d < 0 -> FD_ISSET d s = false.
Proof. intros Hd. now apply Z.testbit_neg_r. Qed.

Lemma prepare_fold_sets (m : mem fd_event) (l : list addr) (d : Z) :
  0 <= d -> forall r w x : fd_set,
  exists r' w' x',
    fold_events prepare_body m l (r, w, x) = inl (r', w', x') /\
    FD_ISSET d r' = FD_ISSET d r || watched m l EV_READABLE d /\
    FD_ISSET d w' = FD_ISSET d w || watched m l EV_WRITABLE d /\
    FD_ISSET d x' = FD_ISSET d x || watched m l EV_EXCEPTIONAL d.
Proof.
  intros Hd. induction l as [|e l IH]; intros r w x.
  - exists r, w, x. cbn. now rewrite !orb_false_r.
  - cbn [fold_events prepare_body watched existsb].
    cbn [enabled fd_event_Event].
    destruct (fe_enabled (m e)) eqn:Hen; cbn [andb].
    + destruct (IH (if watches (m e) EV_READABLE then FD_SET (fd (m e)) r else r)
                   (if watches (m e) EV_WRITABLE then FD_SET (fd (m e)) w else w)
                   (if watches (m e) EV_EXCEPTIONAL then FD_SET (fd (m e)) x else x))
        as (r' & w' & x' & -> & Hr & Hw & Hx).
      exists r', w', x'. split; [reflexivity|].
      rewrite Hr, Hw, Hx. unfold watched.
      destruct (watches (m e) EV_READABLE), (watches (m e) EV_WRITABLE),
        (watches (m e) EV_EXCEPTIONAL); cbn [andb orb];
        rewrite ?FD_ISSET_FD_SET by exact Hd;
        repeat split; destruct (fd (m e) =? d);
        cbn [orb]; rewrite ?orb_true_r; reflexivity.
    + destruct (IH r w x) as (r' & w' & x' & -> & Hr & Hw & Hx).
      exists r', w', x'. split; [reflexivity|]. now rewrite Hr, Hw, Hx.
Qed.

(** The sets do not depend on the descriptor they are asked about. *)
Lemma prepare_fd_sets_members (m : mem fd_event) (ls : linked_list_s)
  (l : list addr) (fuel : nat) :
  registry m ls l -> (length l <= fuel)%nat ->
  exists r w x,
    prepare_fd_sets fuel m ls = Some (r, w, x) /\
    forall d, 0 <= d ->
      FD_ISSET d r = watched m l EV_READABLE d /\
      FD_ISSET d w = watched m l EV_WRITABLE d /\
      FD_ISSET d x = watched m l EV_EXCEPTIONAL d.
Proof.
  intros Hreg Hlen.
  destruct (prepare_fd_sets_registry m ls l fuel Hreg Hlen) as [[[r w] x] Hp].
  exists r, w, x. split; [exact Hp|]. intros d Hd.
  destruct Hreg as (_ & Hf & _ & Hc). unfold prepare_fd_sets in Hp.
  rewrite Hf, (for_each_chain _ _ _ None) in Hp by assumption.
  destruct (prepare_fold_sets m l d Hd FD_ZERO FD_ZERO FD_ZERO)
    as (r' & w' & x' & E & Hr & Hw & Hx).
  rewrite E in Hp. injection Hp as <- <- <-.
  assert (Hz : FD_ISSET d FD_ZERO = false) by apply Z.testbit_0_l.
  rewrite Hz in Hr, Hw, Hx. auto.
Qed.

(** The three sets, for descriptors valid or not. *)
Lemma prepare_fd_sets_exact (capacity : Z) (m : mem fd_event)
  (ls : linked_list_s) (l : list addr) (fuel : nat) :
  registry m ls l -> (length l <= fuel)%nat ->
  enabled_descriptors_valid capacity m l ->
  exists r w x,
    prepare_fd_sets fuel m ls = Some (r, w, x) /\
    forall d,
      (FD_ISSET d r = true <->
         exists e, In e l /\ enabled (m e) = true /\ fd (m e) = d /\
                   watches (m e) EV_READABLE = true) /\
      (FD_ISSET d w = true <->
         exists e, In e l /\ enabled (m e) = true /\ fd (m e) = d /\
                   watches (m e) EV_WRITABLE = true) /\
      (FD_ISSET d x = true <->
         exists e, In e l /\ enabled (m e) = true /\ fd (m e) = d /\
                   watches (m e) EV_EXCEPTIONAL = true).
Proof.
  intros Hreg Hlen Hvalid.
  destruct (prepare_fd_sets_members m ls l fuel Hreg Hlen) as (r & w & x & Hp & Hmem).
  exists r, w, x. split; [exact Hp|].
  assert (Hwatched : forall kind d,
            watched m l kind d = true <->
            exists e, In e l /\ enabled (m e) = true /\ fd (m e) = d /\
                      watches (m e) kind = true).
  { intros kind d. unfold watched. rewrite existsb_exists. split.
    - intros (e & Hin & Hb). apply andb_true_iff in Hb as [Hb Hfd].
      apply andb_true_iff in Hb as [Hen Hk]. apply Z.eqb_eq in Hfd. eauto.
    - intros (e & Hin & Hen & Hfd & Hk). exists e. split; [exact Hin|].
      rewrite Hen, Hk. now apply Z.eqb_eq in Hfd as ->. }
  assert (Hset : forall (s : fd_set) kind,
            (forall d, 0 <= d -> FD_ISSET d s = watched m l kind d) ->
            forall d, FD_ISSET d s = true <->
              exists e, In e l /\ enabled (m e) = true /\ fd (m e) = d /\
                        watches (m e) kind = true).
  { intros s kind Hs d. destruct (Z.ltb_spec d 0) as [Hneg|Hd].
    - rewrite (FD_ISSET_negative d s Hneg). split; [discriminate|].
      intros (e & Hin & Hen & Hfd & _). destruct (Hvalid e Hin Hen). lia.
    - rewrite (Hs d Hd). apply Hwatched. }
  intros d. repeat split; apply Hset; intros d' Hd';
    now destruct (Hmem d' Hd') as (? & ? & ?).
Qed.

(** X3: on a well-formed registry whose enabled events have descriptors
    in [0, FD_SETSIZE), [prepare_fd_sets] puts a descriptor into the
    readable (writable, exceptional) set exactly when some enabled
    registered event on it has [EV_READABLE] ([EV_WRITABLE],
    [EV_EXCEPTIONAL]) in its options; disabled events contribute nothing,
    and every member of the sets is below [FD_SETSIZE]. *)
Theorem prepare_fd_sets_spec (FD_SETSIZE : Z) (m : mem fd_event)
  (ls : linked_list_s) (l : list addr) (fuel : nat) :
  registry m ls l -> (length l <= fuel)%nat ->
  enabled_descriptors_valid FD_SETSIZE m l ->
  exists r w x,
    prepare_fd_sets fuel m ls = Some (r, w, x) /\
    (forall d,
      (FD_ISSET d r = true <->
         exists e, In e l /\ enabled (m e) = true /\ fd (m e) = d /\
                   watches (m e) EV_READABLE = true) /\
      (FD_ISSET d w = true <->
         exists e, In e l /\ enabled (m e) = true /\ fd (m e) = d /\
                   watches (m e) EV_WRITABLE = true) /\
      (FD_ISSET d x = true <->
         exists e, In e l /\ enabled (m e) = true /\ fd (m e) = d /\
                   watches (m e) EV_EXCEPTIONAL = true)) /\
    (forall d,
       FD_ISSET d r = true \/ FD_ISSET d w = true \/ FD_ISSET d x = true ->
       0 <= d < FD_SETSIZE).
Proof.
  intros Hreg Hlen Hvalid.
  destruct (prepare_fd_sets_exact FD_SETSIZE m ls l fuel Hreg Hlen Hvalid)
    as (r & w & x & Hp & Hall).
  exists r, w, x. split; [exact Hp|]. split; [exact Hall|].
  intros d Hin. destruct (Hall d) as (Hr & Hw & Hx).
  assert (Hex : exists e, In e l /\ enabled (m e) = true /\ fd (m e) = d).
  { destruct Hin as [H|[H|H]];
      [apply Hr in H|apply Hw in H|apply Hx in H];
      destruct H as (e & ? & ? & ? & _); eauto. }
  destruct Hex as (e & He & Hen & <-). now apply Hvalid.
Qed.

Lemma parked_watcher_descriptors_valid :
  enabled_descriptors_valid 1024 (fd_mem parked_watcher) [1; 2]%nat.
Proof.
  intros e [<- | [<- | []]] Hen; vm_compute in Hen |- *;
    try discriminate; split; congruence.
Qed.

Lemma prepare_fd_sets_spec_witness :
  prepare_fd_sets 8 (fd_mem parked_watcher) (fd_events (ev_sys parked_watcher))
    = Some (8, 0, 0).
Proof.
  destruct (prepare_fd_sets_spec 1024 (fd_mem parked_watcher)
              (fd_events (ev_sys parked_watcher)) [1; 2]%nat 8
              parked_watcher_registry ltac:(simpl; lia)
              parked_watcher_descriptors_valid)
    as (r & w & x & Hp & _).
  rewrite Hp. vm_compute in Hp. now symmetry.
Defined.

(** X4: the [nfds] that [get_max_nfds] computes covers every descriptor
    [prepare_fd_sets] puts into a set.  On a well-formed registry whose
    descriptors are below [INT_MAX] and, for the enabled events, in
    [0, FD_SETSIZE), [nfds] lies between 1 and [INT_MAX] and each
    descriptor of the three sets lies in [0, nfds), so [select] examines
    all of them. *)
Theorem prepared_descriptors_below_nfds (FD_SETSIZE : Z) (m : mem fd_event)
  (ls : linked_list_s) (l : list addr) (fuel : nat) :
  registry m ls l -> (length l <= fuel)%nat ->
  no_nfds_overflow m l -> enabled_descriptors_valid FD_SETSIZE m l ->
  exists nfds r w x,
    get_max_nfds fuel m ls = Some nfds /\
    prepare_fd_sets fuel m ls = Some (r, w, x) /\
    1 <= nfds <= INT_MAX /\
    forall d,
      FD_ISSET d r = true \/ FD_ISSET d w = true \/ FD_ISSET d x = true ->
      0 <= d < nfds /\ d < FD_SETSIZE.
Proof.
  intros Hreg Hlen Hrange Hvalid.
  destruct (prepare_fd_sets_members m ls l fuel Hreg Hlen) as (r & w & x & Hp & Hmem).
  exists (highest_fd m l 0 + 1), r, w, x.
  split; [now apply get_max_nfds_registry|]. split; [exact Hp|].
  pose proof (highest_fd_ge_start m l 0) as H0.
  pose proof (highest_fd_below m l Hrange 0 INT_MAX) as Hmax.
  split; [unfold INT_MAX in *; lia|].
  intros d Hset.
  destruct (Z.ltb_spec d 0) as [Hneg|Hd].
  { rewrite !(FD_ISSET_negative d) in Hset by exact Hneg.
    destruct Hset as [?|[?|?]]; discriminate. }
  destruct (Hmem d Hd) as (Hr & Hw & Hx). rewrite Hr, Hw, Hx in Hset.
  assert (Hex : exists e, In e l /\ enabled (m e) = true /\ fd (m e) = d).
  { assert (Hk : forall kind, watched m l kind d = true ->
                   exists e, In e l /\ enabled (m e) = true /\ fd (m e) = d).
    { intros kind Hk. unfold watched in Hk. apply existsb_exists in Hk.
      destruct Hk as (e & Hin & Hb). apply andb_true_iff in Hb as [Hb Hfd].
      apply andb_true_iff in Hb as [Hen _].
      apply Z.eqb_eq in Hfd. eauto. }
    destruct Hset as [?|[?|?]]; eapply Hk; eassumption. }
  destruct Hex as (e & Hin & Hen & <-).
  pose proof (highest_fd_upper_bound m l 0 e Hin).
  destruct (Hvalid e Hin Hen). lia.
Qed.

Lemma prepared_descriptors_below_nfds_witness :
  exists nfds r w x,
    get_max_nfds 8 (fd_mem stopping_watcher) (fd_events (ev_sys stopping_watcher))
      = Some nfds /\
    prepare_fd_sets 8 (fd_mem stopping_watcher) (fd_events (ev_sys stopping_watcher))
      = Some (r, w, x) /\
    1 <= nfds <= INT_MAX /\
    forall d,
      FD_ISSET d r = true \/ FD_ISSET d w = true \/ FD_ISSET d x = true ->
      0 <= d < nfds /\ d < 1024.
Proof.
  apply (prepared_descriptors_below_nfds 1024 (fd_mem stopping_watcher)
           (fd_events (ev_sys stopping_watcher)) [1; 2]%nat 8).
  - concrete_registry.
  - simpl. lia.
  - intros e [<- | [<- | []]]; reflexivity.
  - intros e [<- | [<- | []]] Hen; vm_compute; split; congruence.
Defined.

(** ** Dispatch *)

Section DispatchFacts.

Variable FD_SETSIZE : Z.
Variable invoke : nat -> nat -> world -> world * Z.

(** One [dispatch] adds at most its own event to the record. *)
Lemma dispatch_log (set : fd_set) (c : addr) (st : state) :
  snd (fst (dispatch invoke set c st)) = snd st \/
  snd (fst (dispatch invoke set c st)) = snd st ++ [FiredFd c].
Proof.
  unfold dispatch.
  destruct (enabled (fd_mem (fst st) c) && FD_ISSET (fd (fd_mem (fst st) c)) set);
    [|now left].
  destruct (invoke _ _ _) as [w' r]. now right.
Qed.

(** [handle_fd_events] only ever appends fd-event callbacks. *)
Lemma handle_fd_events_log (fuel : nat) (r w x : fd_set) :
  forall (current : ptr) (st st' : state) (res : option Z),
  handle_fd_events invoke fuel r w x current st = Some (st', res) ->
  exists fds, snd st' = snd st ++ map FiredFd fds.
Proof.
  induction fuel as [|k IH]; intros current st st' res Hh.
  - destruct current; [discriminate|]. injection Hh as <- _.
    exists []. now rewrite app_nil_r.
  - destruct current as [c|].
    2:{ injection Hh as <- _. exists []. now rewrite app_nil_r. }
    cbn [handle_fd_events] in Hh.
    pose proof (dispatch_log r c st) as H1.
    destruct (dispatch invoke r c st) as [st1 stop1]. cbn [fst] in H1.
    assert (E1 : exists f1, snd st1 = snd st ++ map FiredFd f1).
    { destruct H1 as [->| ->]; [exists []|exists [c]]; simpl; now rewrite ?app_nil_r. }
    destruct E1 as [f1 E1].
    destruct stop1; [injection Hh as <- _; eauto|].
    pose proof (dispatch_log w c st1) as H2.
    destruct (dispatch invoke w c st1) as [st2 stop2]. cbn [fst] in H2.
    assert (E2 : exists f2, snd st2 = snd st ++ map FiredFd f2).
    { destruct H2 as [->| ->]; rewrite E1; [now exists f1|exists (f1 ++ [c])].
      now rewrite map_app, app_assoc. }
    destruct E2 as [f2 E2].
    destruct stop2; [injection Hh as <- _; eauto|].
    pose proof (dispatch_log x c st2) as H3.
    destruct (dispatch invoke x c st2) as [st3 stop3]. cbn [fst] in H3.
    assert (E3 : exists f3, snd st3 = snd st ++ map FiredFd f3).
    { destruct H3 as [->| ->]; rewrite E2; [now exists f2|exists (f2 ++ [c])].
      now rewrite map_app, app_assoc. }
    destruct E3 as [f3 E3].
    destruct stop3; [injection Hh as <- _; eauto|].
    destruct (IH _ _ _ _ Hh) as [f4 E4].
    exists (f3 ++ f4). now rewrite E4, E3, map_app, app_assoc.
Qed.

Lemma event_system_sleep_log (fuel : nat) (select : select_fn) (t : Z)
  (st st' : state) (result : Z) :
  event_system_sleep FD_SETSIZE invoke fuel select t st = Some (st', result) ->
  exists fds, snd st' = snd st ++ map FiredFd fds.
Proof.
  unfold event_system_sleep. intros Hs.
  assert (Hnil : exists fds, snd st = snd st ++ map FiredFd fds).
  { exists []. now rewrite app_nil_r. }
  destruct (get_max_nfds _ _ _) as [nfds|]; [|discriminate].
  destruct (FD_SETSIZE <=? nfds); [now injection Hs as <- _|].
  destruct (prepare_fd_sets _ _ _) as [[[r w] x]|]; [|discriminate].
  destruct (select nfds r w x _) as [res [[r' w'] x']].
  destruct (res =? -1); [now injection Hs as <- _|].
  destruct (handle_fd_events _ _ _ _ _ _ _) as [[st1 hres]|] eqn:Hh; [|discriminate].
  injection Hs as <- _. eapply handle_fd_events_log; eassumption.
Qed.

(** X5: one pass of the loop invokes at most one timed-event callback,
    whatever the callbacks and [select] do: the record of invocations is
    only extended, by fd-event callbacks followed by at most one
    timed-event callback. *)
Theorem loop_iteration_fires_at_most_one_timer (fuel : nat) (select : select_fn)
  (cur_time : Z) (st st' : state) (status : loop_status) :
  loop_iteration FD_SETSIZE invoke fuel select cur_time st = Some (st', status) ->
  exists fds timers,
    snd st' = snd st ++ map FiredFd fds ++ timers /\
    (timers = [] \/ exists e, timers = [FiredTimed e]).
Proof.
  unfold loop_iteration. intros Hl.
  assert (Hfire : forall ne t st0 st1 s,
            fire_timed_event invoke ne cur_time t st0 = Some (st1, s) ->
            exists e, snd st1 = snd st0 ++ [FiredTimed e]).
  { intros ne t st0 st1 s Hf. unfold fire_timed_event in Hf.
    destruct ne as [e|]; [|discriminate]. exists e.
    destruct (invoke _ _ _) as [w' r].
    destruct (negb (r =? 0)); now injection Hf as <- _. }
  destruct (calc_next_timed_event _ _ _ _) as [[wait cand]|]; [|discriminate].
  destruct (wait =? U64.max).
  { destruct (event_system_sleep _ _ _ _ _ _) as [[st1 res]|] eqn:Hs; [|discriminate].
    destruct (event_system_sleep_log _ _ _ _ _ _ Hs) as [fds E].
    exists fds, []. rewrite app_nil_r.
    destruct (res =? -1); injection Hl as <- _; auto. }
  destruct (negb (wait =? 0)).
  - destruct (event_system_sleep _ _ _ _ _ _) as [[st1 res]|] eqn:Hs; [|discriminate].
    destruct (event_system_sleep_log _ _ _ _ _ _ Hs) as [fds E].
    destruct (res =? -1).
    { injection Hl as <- _. exists fds, []. rewrite app_nil_r. auto. }
    destruct (0 <=? res).
    { injection Hl as <- _. exists fds, []. rewrite app_nil_r. auto. }
    destruct (Hfire _ _ _ _ _ Hl) as [e He].
    exists fds, [FiredTimed e]. rewrite He, E, <- app_assoc. eauto.
  - destruct (Hfire _ _ _ _ _ Hl) as [e He].
    exists [], [FiredTimed e]. rewrite He. eauto.
Qed.

End DispatchFacts.

Lemma loop_iteration_fires_at_most_one_timer_witness :
  let st' :=
    (with_timed three_timers
       (store (timed_mem three_timers) 3%nat
          (set_last_call 25 (timed_mem three_timers 3%nat)))
       (timed_events (ev_sys three_timers)), [FiredTimed 3%nat]) in
  loop_iteration 1024 returns_own_pointer 8 (posix_select only_readable) 25
    (three_timers, []) = Some (st', Continue) /\
  exists fds timers,
    snd st' = [] ++ map FiredFd fds ++ timers /\
    (timers = [] \/ exists e, timers = [FiredTimed e]).
Proof.
  intros st'.
  assert (E : loop_iteration 1024 returns_own_pointer 8
                (posix_select only_readable) 25 (three_timers, [])
              = Some (st', Continue)) by reflexivity.
  split; [exact E|].
  exact (loop_iteration_fires_at_most_one_timer 1024 returns_own_pointer 8
           (posix_select only_readable) 25 (three_timers, []) st' Continue E).
Defined.

Section DispatchOrder.

Variable FD_SETSIZE : Z.
Variable invoke : nat -> nat -> world -> world * Z.

(** The fd-event structs as they are when the dispatch starts. *)
Variable m0 : mem fd_event.

Lemma dispatch_keeps_going (set : fd_set) (c : addr) (st : state) :
  (forall a, fd_mem (fst st) a = m0 a) -> keeps_going invoke m0 c ->
  exists w',
    dispatch invoke set c st
    = ((w', snd st ++ fires_for m0 set c), false) /\
    forall a, fd_mem w' a = m0 a.
Proof.
  intros Hm Hk. unfold dispatch, fires_for. rewrite (Hm c).
  destruct (enabled (m0 c) && FD_ISSET (fd (m0 c)) set).
  - destruct (Hk (fst st)) as [Hr Hf].
    destruct (invoke _ _ _) as [w' r]. cbn [fst snd] in *. subst r.
    exists w'. split; [reflexivity|]. intros a. now rewrite Hf.
  - exists (fst st). rewrite app_nil_r. split; [now destruct st|exact Hm].
Qed.

(** An event whose callback keeps going: the walk moves to its successor
    with the event's firings recorded. *)
Lemma handle_fd_events_step (k : nat) (r w x : fd_set) (c : addr) (st : state) :
  (forall a, fd_mem (fst st) a = m0 a) -> keeps_going invoke m0 c ->
  exists w',
    handle_fd_events invoke (S k) r w x (Some c) st
    = handle_fd_events invoke k r w x (next (m0 c))
        (w', snd st ++ firings r w x m0 c) /\
    forall a, fd_mem w' a = m0 a.
Proof.
  intros Hm Hk. cbn [handle_fd_events].
  destruct (dispatch_keeps_going r c st Hm Hk) as (w1 & -> & Hm1).
  destruct (dispatch_keeps_going w c (w1, snd st ++ fires_for m0 r c) Hm1 Hk)
    as (w2 & -> & Hm2).
  cbn [fst snd].
  destruct (dispatch_keeps_going x c
              (w2, (snd st ++ fires_for m0 r c) ++ fires_for m0 w c) Hm2 Hk)
    as (w3 & -> & Hm3).
  exists w3. split; [|exact Hm3].
  cbn [fst snd]. rewrite (Hm3 c). unfold firings, fires_for.
  destruct (enabled (m0 c)); cbn [andb]; rewrite <- ?app_assoc, ?app_nil_r;
    reflexivity.
Qed.

Lemma handle_fd_events_keep_going (r w x : fd_set) (l : list addr) :
  forall (p : ptr) (fuel : nat) (st : state),
  (forall a, fd_mem (fst st) a = m0 a) ->
  chain m0 p l None -> (length l <= fuel)%nat ->
  (forall e, In e l -> keeps_going invoke m0 e) ->
  exists w',
    handle_fd_events invoke fuel r w x (head_or l None) st
    = Some ((w', snd st ++ flat_map (firings r w x m0) l), None) /\
    forall a, fd_mem w' a = m0 a.
Proof.
  induction l as [|c l IH]; intros p fuel st Hm Hc Hlen Hk.
  - exists (fst st). cbn. rewrite app_nil_r.
    split; [destruct fuel, st; reflexivity|exact Hm].
  - destruct fuel as [|k]; [simpl in Hlen; lia|].
    destruct Hc as (_ & Hn & Hc). cbn [head_or].
    destruct (handle_fd_events_step k r w x c st Hm (Hk c (or_introl eq_refl)))
      as (w1 & -> & Hm1).
    rewrite Hn.
    destruct (IH (Some c) k (w1, snd st ++ firings r w x m0 c) Hm1 Hc
                 ltac:(simpl in Hlen; lia)
                 ltac:(intros e He; apply Hk; now right))
      as (w' & -> & Hm').
    exists w'. split; [|exact Hm'].
    cbn [snd flat_map]. now rewrite <- app_assoc.
Qed.

(** X6: how [event_system_sleep] dispatches when [select] succeeds and
    the callbacks of the registered fd-events return 0 without touching
    the fd-event structs, on a registry whose descriptors are below
    [INT_MAX] and, for the enabled events, in [0, FD_SETSIZE) (the
    descriptors [FD_ISSET] is defined for).  The events are served in
    registry order; each enabled event is called back once for every set
    ([select]'s readable, writable, exceptional, in this order) that
    holds its descriptor, a disabled event never; the function returns
    [select]'s result. *)
Theorem event_system_sleep_dispatch_order (fuel : nat) (select : select_fn)
  (time_to_wait : Z) (st : state) (l : list addr)
  (nfds result : Z) (r w x r' w' x' : fd_set) :
  (forall a, fd_mem (fst st) a = m0 a) ->
  registry m0 (fd_events (ev_sys (fst st))) l -> (length l <= fuel)%nat ->
  no_nfds_overflow m0 l -> enabled_descriptors_valid FD_SETSIZE m0 l ->
  (forall e, In e l -> keeps_going invoke m0 e) ->
  get_max_nfds fuel (fd_mem (fst st)) (fd_events (ev_sys (fst st))) = Some nfds ->
  nfds < FD_SETSIZE ->
  prepare_fd_sets fuel (fd_mem (fst st)) (fd_events (ev_sys (fst st)))
    = Some (r, w, x) ->
  select nfds r w x (evtime_to_timeval time_to_wait) = (result, (r', w', x')) ->
  result <> -1 ->
  exists world',
    event_system_sleep FD_SETSIZE invoke fuel select time_to_wait st
    = Some ((world', snd st ++ flat_map (firings r' w' x' m0) l), result) /\
    forall a, fd_mem world' a = m0 a.
Proof.
  intros Hm (_ & Hf & _ & Hc) Hlen _ _ Hk Hnfds Hcap Hprep Hsel Hres.
  unfold event_system_sleep. rewrite Hnfds, Hprep, Hsel.
  destruct (Z.leb_spec FD_SETSIZE nfds); [lia|].
  destruct (Z.eqb_spec result (-1)); [contradiction|].
  rewrite Hf.
  destruct (handle_fd_events_keep_going r' w' x' l None fuel st Hm Hc Hlen Hk)
    as (world' & -> & Hm').
  now exists world'.
Qed.


End DispatchOrder.

Lemma returns_own_pointer_keeps_going (m0 : mem fd_event) (e : addr) :
  callback (m0 e) = 0%nat -> keeps_going returns_own_pointer m0 e.
Proof. intros E w. rewrite E. split; reflexivity. Qed.

Lemma event_system_sleep_dispatch_order_witness :
  exists world',
    event_system_sleep 1024 returns_own_pointer 8
      (posix_select readable_and_writable) 100 (shared_descriptor, [])
    = Some ((world', [FiredFd 1; FiredFd 1; FiredFd 2; FiredFd 2]%nat), 2) /\
    forall a, fd_mem world' a = fd_mem shared_descriptor a.
Proof.
  apply (event_system_sleep_dispatch_order 1024 returns_own_pointer
           (fd_mem shared_descriptor) 8 (posix_select readable_and_writable) 100
           (shared_descriptor, []) [1; 2]%nat 4 2 8 8 0 8 8 0).
  - reflexivity.
  - concrete_registry.
  - simpl. lia.
  - intros e [<- | [<- | []]]; reflexivity.
  - intros e [<- | [<- | []]] Hen; vm_compute; split; congruence.
  - intros e [<- | [<- | []]]; now apply returns_own_pointer_keeps_going.
  - reflexivity.
  - lia.
  - reflexivity.
  - reflexivity.
  - lia.
Defined.


(** ** Failure of the wait, and timers that are already due *)

Section LoopFacts.

Variable FD_SETSIZE : Z.
Variable invoke : nat -> nat -> world -> world * Z.


(** X9: a timed event that is already due fires before any wait.  When
    some enabled event is due, the outcome of the pass is the same for
    every [select], which is not called: the callback of the first due
    event in registry order is invoked and nothing else.  If it returns
    non-zero the loop terminates in the world the callback left;
    otherwise the loop continues in that world with [cur_time] stored in
    [last_call] of that event, every other member and struct being as
    the callback left it. *)
Theorem due_timer_fires_without_waiting (fuel : nat) (select : select_fn)
  (st : state) (lt : list addr) (cur_time : Z) (e : addr) :
  registry (timed_mem (fst st)) (timed_events (ev_sys (fst st))) lt ->
  (length lt <= fuel)%nat ->
  U64.in_range cur_time ->
  find (is_due (timed_mem (fst st)) cur_time) lt = Some e ->
  let ev := timed_mem (fst st) e in
  let w' := fst (invoke (callback ev) (carry_data ev) (fst st)) in
  let r := snd (invoke (callback ev) (carry_data ev) (fst st)) in
  loop_iteration FD_SETSIZE invoke fuel select cur_time st
  = Some ((if r =? 0
           then {| timed_mem :=
                     store (timed_mem w') e
                       (set_last_call cur_time (timed_mem w' e));
                   fd_mem := fd_mem w';
                   ev_sys := ev_sys w';
                   user := user w' |}
           else w',
           snd st ++ [FiredTimed e]),
          if r =? 0 then Continue else Terminated).
Proof.
  intros Hreg Hlen Hrange Hdue ev w' r. unfold loop_iteration.
  rewrite (calc_next_timed_event_due _ _ lt fuel cur_time e Hreg Hlen Hdue).
  change (0 =? U64.max) with false. cbn [Z.eqb negb].
  unfold fire_timed_event. fold ev. subst w' r.
  destruct (invoke (callback ev) (carry_data ev) (fst st)) as [w1 r1].
  cbn [fst snd].
  destruct (Z.eqb_spec r1 0) as [->|Hne]; cbn [negb]; [|reflexivity].
  assert (Hadd : U64.add cur_time 0 = cur_time).
  { unfold U64.add. rewrite Z.add_0_r. now apply U64Facts.wrap_small. }
  rewrite Hadd. unfold with_timed.
  now destruct (ev_sys w1).
Qed.

End LoopFacts.


Lemma due_timer_fires_without_waiting_witness :
  loop_iteration 1024 returns_own_pointer 8 (posix_select only_readable) 25
    (three_timers, [])
  = Some (({| timed_mem :=
                store (timed_mem three_timers) 3%nat
                  (set_last_call 25 (timed_mem three_timers 3%nat));
              fd_mem := fd_mem three_timers;
              ev_sys := ev_sys three_timers;
              user := user three_timers |},
           [FiredTimed 3%nat]), Continue).
Proof.
  exact (due_timer_fires_without_waiting 1024 returns_own_pointer 8
           (posix_select only_readable) (three_timers, []) [1; 2; 3]%nat 25
           3%nat three_timers_registry ltac:(simpl; lia)
           ltac:(vm_compute; split; congruence) eq_refl).
Defined.

(** ** Starting the loop *)

Lemma set_last_call_links (t : Z) (ev : timed_event) :
  prev (set_last_call t ev) = prev ev /\ next (set_last_call t ev) = next ev.
Proof. split; reflexivity. Qed.

Lemma stamp_last_call_chain (t : Z) (l : list addr) :
  forall (p : ptr) (fuel : nat) (m : mem timed_event),
  NoDup l -> chain m p l None -> (length l <= fuel)%nat ->
  exists m',
    stamp_last_call fuel t m (head_or l None) = Some m' /\
    (forall e, In e l -> m' e = set_last_call t (m e)) /\
    (forall a, ~ In a l -> m' a = m a).
Proof.
  induction l as [|c l IH]; intros p fuel m Hnd Hc Hlen.
  - exists m. split; [now destruct fuel|]. split; [intros e []|auto].
  - destruct fuel as [|k]; [simpl in Hlen; lia|].
    apply NoDup_cons_iff in Hnd as [Hnotin Hnd].
    destruct Hc as (_ & Hn & Hc).
    cbn [head_or stamp_last_call]. rewrite store_same.
    change (next (set_last_call t (m c))) with (next (m c)). rewrite Hn.
    assert (Hc' : chain (store m c (set_last_call t (m c))) (Some c) l None).
    { apply chain_frame with (m := m); trivial.
      intros z Hz. assert (z <> c) by (intros ->; contradiction).
      now rewrite store_other. }
    destruct (IH (Some c) k _ Hnd Hc' ltac:(simpl in Hlen; lia))
      as (m' & -> & Hin & Hout).
    exists m'. split; [reflexivity|]. split.
    + intros e [<- | He].
      * rewrite (Hout c Hnotin). apply store_same.
      * rewrite (Hin e He). f_equal. apply store_other.
        intros ->. contradiction.
    + intros a Ha. rewrite Hout by (intros Hi; apply Ha; now right).
      apply store_other. intros ->. apply Ha. now left.
Qed.

Section StartFacts.

Variable FD_SETSIZE : Z.
Variable invoke : nat -> nat -> world -> world * Z.

(** X10: [event_system_start] first stamps every registered timed event,
    enabled or disabled, with the start time: each registered struct
    keeps all its members but [last_call], which becomes [start_time];
    structs that are not registered are untouched, the registry is still
    well-formed, and the passes of the loop then run on that world. *)
Theorem event_system_start_stamps_all (fuel : nat) (start_time : Z)
  (passes : list (Z * select_fn)) (st : state) (l : list addr) :
  registry (timed_mem (fst st)) (timed_events (ev_sys (fst st))) l ->
  (length l <= fuel)%nat ->
  exists m',
    (forall e, In e l -> m' e = set_last_call start_time (timed_mem (fst st) e)) /\
    (forall a, ~ In a l -> m' a = timed_mem (fst st) a) /\
    registry m' (timed_events (ev_sys (fst st))) l /\
    event_system_start FD_SETSIZE invoke fuel start_time passes st
    = event_loop FD_SETSIZE invoke fuel passes
        (with_timed (fst st) m' (timed_events (ev_sys (fst st))), snd st).
Proof.
  intros (Hnd & Hf & Hl & Hc) Hlen.
  destruct (stamp_last_call_chain start_time l None fuel _ Hnd Hc Hlen)
    as (m' & Hs & Hin & Hout).
  exists m'. split; [exact Hin|]. split; [exact Hout|]. split.
  - split; [exact Hnd|]. split; [exact Hf|]. split; [exact Hl|].
    apply chain_frame with (m := timed_mem (fst st)); trivial.
    intros x Hx. rewrite (Hin x Hx). apply set_last_call_links.
  - unfold event_system_start. now rewrite Hf, Hs.
Qed.

End StartFacts.

Lemma event_system_start_stamps_all_witness :
  exists m',
    (forall e, In e [1; 2; 3]%nat ->
       m' e = set_last_call 40 (timed_mem three_timers e)) /\
    (forall a, ~ In a [1; 2; 3]%nat -> m' a = timed_mem three_timers a) /\
    registry m' (timed_events (ev_sys three_timers)) [1; 2; 3]%nat /\
    event_system_start 1024 returns_own_pointer 8 40 [] (three_timers, [])
    = event_loop 1024 returns_own_pointer 8 []
        (with_timed three_timers m' (timed_events (ev_sys three_timers)), []).
Proof.
  apply (event_system_start_stamps_all 1024 returns_own_pointer 8 40 []
           (three_timers, []) [1; 2; 3]%nat three_timers_registry).
  simpl. lia.
Defined.

(** ** More on the scheduler *)

Lemma find_none_all {A : Type} (f : A -> bool) (l : list A) :
  (forall x, In x l -> f x = false) -> find f l = None.
Proof.
  induction l as [|x l IH]; intros Hall; [reflexivity|]. simpl.
  rewrite (Hall x (or_introl eq_refl)). apply IH.
  intros y Hy. apply Hall. now right.
Qed.

(** With every enabled event last called at [now], no event is due and
    the waits are the intervals. *)
Lemma min_wait_after_stamp (m : mem timed_event) (now : Z) (l : list addr) :
  0 <= now ->
  (forall e, In e l -> enabled (m e) = true ->
     last_call (m e) = now /\ 0 < interval (m e) /\
     now + interval (m e) < U64.modulus) ->
  find (is_due m now) l = None /\
  min_wait m now l = min_interval m l /\
  forall v e, waits m now v e = enabled (m e) && (interval (m e) =? v) \/ ~ In e l.
Proof.
  intros Hnow Hall.
  assert (Hca : forall e, In e l -> enabled (m e) = true ->
                  continue_at (m e) = now + interval (m e)).
  { intros e Hin Hen. destruct (Hall e Hin Hen) as (Hlc & Hpos & Hb).
    unfold continue_at, U64.add. rewrite Hlc.
    apply U64Facts.wrap_small. unfold U64.in_range. lia. }
  split; [|split].
  - apply find_none_all. intros e Hin. unfold is_due.
    destruct (enabled (m e)) eqn:Hen; [|reflexivity]. cbn [andb].
    rewrite (Hca e Hin Hen). destruct (Hall e Hin Hen) as (_ & Hpos & _).
    apply Z.leb_gt. lia.
  - induction l as [|x l IH]; [reflexivity|]. cbn [min_wait min_interval].
    rewrite IH.
    + destruct (enabled (m x)) eqn:Hen; [|reflexivity].
      rewrite (Hca x (or_introl eq_refl) Hen). f_equal. lia.
    + intros e He. apply Hall. now right.
    + intros e He. apply Hca. now right.
  - intros v e. destruct (in_dec Nat.eq_dec e l) as [Hin|Hout]; [left|now right].
    unfold waits. destruct (enabled (m e)) eqn:Hen; [|reflexivity]. cbn [andb].
    rewrite (Hca e Hin Hen). f_equal. lia.
Qed.

Lemma min_interval_lower_bound (m : mem timed_event) (l : list addr) (e : addr) :
  In e l -> enabled (m e) = true -> min_interval m l <= interval (m e).
Proof.
  induction l as [|x l IH]; [intros []|]. cbn [min_interval].
  intros [-> | Hin] Hen.
  - rewrite Hen. lia.
  - specialize (IH Hin Hen). destruct (enabled (m x)); lia.
Qed.

(** X11: intervals are measured from the start of the loop.  After the
    stamping of [event_system_start] at [start_time], the scheduler asked
    at that same time finds no event due and returns the least interval
    of the enabled events ([UINT64_MAX] if there is none), provided the
    enabled events have a positive interval that does not carry
    [start_time] beyond [2^64]. *)
Theorem first_wait_is_least_interval (fuel : nat) (start_time : Z)
  (m : mem timed_event) (ls : linked_list_s) (l : list addr) :
  registry m ls l -> (length l <= fuel)%nat -> 0 <= start_time ->
  (forall e, In e l -> enabled (m e) = true ->
     0 < interval (m e) /\ start_time + interval (m e) < U64.modulus) ->
  exists m' cand,
    stamp_last_call fuel start_time m (first ls) = Some m' /\
    calc_next_timed_event fuel m' ls start_time = Some (min_interval m l, cand) /\
    0 < min_interval m l /\
    (forall e, In e l -> enabled (m e) = true -> min_interval m l <= interval (m e)).
Proof.
  intros Hreg Hlen Hnow Hiv.
  destruct Hreg as (Hnd & Hf & Hl & Hc).
  destruct (stamp_last_call_chain start_time l None fuel m Hnd Hc Hlen)
    as (m' & Hs & Hin & _).
  assert (Hreg' : registry m' ls l).
  { split; [exact Hnd|]. split; [exact Hf|]. split; [exact Hl|].
    apply chain_frame with (m := m); trivial.
    intros x Hx. rewrite (Hin x Hx). apply set_last_call_links. }
  assert (Hall : forall e, In e l -> enabled (m' e) = true ->
            last_call (m' e) = start_time /\ 0 < interval (m' e) /\
            start_time + interval (m' e) < U64.modulus).
  { intros e He Hen. rewrite (Hin e He) in *. cbn in Hen |- *.
    destruct (Hiv e He Hen). auto. }
  destruct (min_wait_after_stamp m' start_time l Hnow Hall) as (Hnone & Hmin & _).
  assert (Hsame : min_interval m' l = min_interval m l).
  { clear - Hin. induction l as [|x l IH]; [reflexivity|]. cbn [min_interval].
    rewrite IH by (intros e He; apply Hin; now right).
    now rewrite (Hin x (or_introl eq_refl)). }
  exists m'. eexists. rewrite Hf. split; [exact Hs|]. split.
  - rewrite (calc_next_timed_event_not_due m' ls l fuel start_time Hreg' Hlen
               Hnow Hnone).
    rewrite Hmin, Hsame. reflexivity.
  - split; [rewrite <- Hsame, <- Hmin; now apply min_wait_pos|].
    intros e He Hen. now apply min_interval_lower_bound.
Qed.

Lemma first_wait_is_least_interval_witness :
  exists m' cand,
    stamp_last_call 8 40 (timed_mem three_timers)
      (first (timed_events (ev_sys three_timers))) = Some m' /\
    calc_next_timed_event 8 m' (timed_events (ev_sys three_timers)) 40
      = Some (20, cand).
Proof.
  destruct (first_wait_is_least_interval 8 40 (timed_mem three_timers)
              (timed_events (ev_sys three_timers)) [1; 2; 3]%nat
              three_timers_registry ltac:(simpl; lia) ltac:(lia))
    as (m' & cand & Hs & Hc & _).
  - intros e [<- | [<- | [<- | []]]] Hen; vm_compute in Hen |- *;
      try discriminate; split; reflexivity.
  - exists m', cand. split; [exact Hs|exact Hc].
Defined.

Lemma calc_candidate (m : mem timed_event)
  (ls : linked_list_s) (l : list addr) (fuel : nat) (now wait : Z) (e : addr) :
  registry m ls l -> (length l <= fuel)%nat -> 0 <= now ->
  calc_next_timed_event fuel m ls now = Some (wait, Some e) ->
  In e l /\ enabled (m e) = true /\
  (wait = 0 <-> continue_at (m e) <= now) /\
  (wait <> 0 -> wait = continue_at (m e) - now).
Proof.
  intros Hreg Hlen Hnow Hcalc.
  destruct (find (is_due m now) l) as [d|] eqn:Hfind.
  - rewrite (calc_next_timed_event_due m ls l fuel now d Hreg Hlen Hfind) in Hcalc.
    injection Hcalc as <- <-.
    destruct (find_some _ _ Hfind) as [Hin Hdue]. unfold is_due in Hdue.
    apply andb_true_iff in Hdue as [Hen Hle]. apply Z.leb_le in Hle.
    repeat split; trivial; congruence.
  - rewrite (calc_next_timed_event_not_due m ls l fuel now Hreg Hlen Hnow Hfind)
      in Hcalc.
    injection Hcalc as <- Hcand.
    destruct (min_wait m now l <? U64.max); [|discriminate].
    destruct (find_some _ _ Hcand) as [Hin Hw]. unfold waits in Hw.
    apply andb_true_iff in Hw as [Hen Heq]. apply Z.eqb_eq in Heq.
    pose proof (min_wait_pos m now l Hfind) as Hpos.
    repeat split; trivial; lia.
Qed.

(** X12: the candidate of [calc_next_timed_event] is always a registered,
    enabled event -- a disabled or unregistered event is never selected.
    The wait returned with it is 0 exactly when the candidate is due, and
    otherwise the time left until its due time. *)
Theorem candidate_is_enabled_and_registered (m : mem timed_event)
  (ls : linked_list_s) (l : list addr) (fuel : nat) (now wait : Z) (e : addr) :
  registry m ls l -> (length l <= fuel)%nat -> 0 <= now ->
  calc_next_timed_event fuel m ls now = Some (wait, Some e) ->
  In e l /\ enabled (m e) = true /\
  (wait = 0 <-> continue_at (m e) <= now) /\
  (wait <> 0 -> wait = continue_at (m e) - now).
Proof. apply calc_candidate. Qed.

Lemma candidate_is_enabled_and_registered_witness :
  In 3%nat [1; 2; 3]%nat /\ enabled (timed_mem three_timers 3%nat) = true /\
  (10 = 0 <-> continue_at (timed_mem three_timers 3%nat) <= 10) /\
  (10 <> 0 -> 10 = continue_at (timed_mem three_timers 3%nat) - 10).
Proof.
  apply (candidate_is_enabled_and_registered (timed_mem three_timers)
           (timed_events (ev_sys three_timers)) [1; 2; 3]%nat 8 10 10 3%nat
           three_timers_registry).
  - simpl. lia.
  - lia.
  - reflexivity.
Defined.

(** ** Enabling, disabling and rescheduling *)

(** A store that keeps the links of the struct keeps the registry. *)
Lemma registry_store_links {A : Type} `{Event A} (m : mem A)
  (ls : linked_list_s) (l : list addr) (a : addr) (v : A) :
  registry m ls l -> prev v = prev (m a) -> next v = next (m a) ->
  registry (store m a v) ls l.
Proof.
  intros (Hnd & Hf & Hl & Hc) Hp Hn.
  split; [exact Hnd|]. split; [exact Hf|]. split; [exact Hl|].
  apply chain_frame with (m := m); trivial.
  intros x _. unfold store. destruct (Nat.eqb x a) eqn:E; [|auto].
  apply Nat.eqb_eq in E. subst x. auto.
Qed.

(** X13: a disabled timed event stays registered but is never selected.
    [disable_timed_event] changes nothing but the [enabled] member of the
    event, the registry is the same list, and whatever the time the
    scheduler then returns a result whose candidate is not that event. *)
Theorem disabled_timer_is_never_selected (w : world) (l : list addr)
  (fuel : nat) (now : Z) (e : addr) :
  registry (timed_mem w) (timed_events (ev_sys w)) l ->
  (length l <= fuel)%nat -> 0 <= now ->
  let w' := disable_timed_event w e in
  registry (timed_mem w') (timed_events (ev_sys w')) l /\
  timed_mem w' e = set_timed_enabled false (timed_mem w e) /\
  (forall a, a <> e -> timed_mem w' a = timed_mem w a) /\
  exists wait cand,
    calc_next_timed_event fuel (timed_mem w') (timed_events (ev_sys w')) now
      = Some (wait, cand) /\
    cand <> Some e.
Proof.
  intros Hreg Hlen Hnow w'.
  assert (Hreg' : registry (timed_mem w') (timed_events (ev_sys w')) l).
  { unfold w', disable_timed_event. cbn [with_timed timed_mem ev_sys timed_events].
    now apply registry_store_links. }
  split; [exact Hreg'|]. split; [apply store_same|].
  split; [intros a Ha; now apply store_other|].
  destruct (calc_next_timed_event fuel (timed_mem w') (timed_events (ev_sys w')) now)
    as [[wait cand]|] eqn:Hcalc.
  - exists wait, cand. split; [reflexivity|]. intros ->.
    destruct (calc_candidate _ _ l fuel now wait e Hreg' Hlen Hnow Hcalc)
      as (_ & Hen & _).
    unfold w', disable_timed_event in Hen.
    cbn [with_timed timed_mem] in Hen. rewrite store_same in Hen. discriminate.
  - rewrite (calc_next_timed_event_fold _ _ l fuel now Hreg' Hlen) in Hcalc.
    discriminate.
Qed.

Lemma disabled_timer_is_never_selected_witness :
  exists wait cand,
    calc_next_timed_event 8 (timed_mem (disable_timed_event three_timers 3%nat))
      (timed_events (ev_sys (disable_timed_event three_timers 3%nat))) 10
      = Some (wait, cand) /\
    cand <> Some 3%nat.
Proof.
  apply (disabled_timer_is_never_selected three_timers [1; 2; 3]%nat 8 10 3%nat
           three_timers_registry).
  - simpl. lia.
  - lia.
Defined.

(** X14: [reschedule_event] and [enable_timed_event] restart the interval
    at the time read from the clock.  Both leave the registry and every
    other struct as they were and set [last_call] to that time;
    [enable_timed_event] also sets [enabled].  If the interval does not
    carry that time beyond [2^64], the enabled event is due exactly from
    [time + interval] on, whatever its [last_call] was before. *)
Theorem reschedule_restarts_interval (clock : timespec) (w : world)
  (l : list addr) (e : addr) :
  registry (timed_mem w) (timed_events (ev_sys w)) l ->
  0 <= interval (timed_mem w e) ->
  get_nanotime clock + interval (timed_mem w e) < U64.modulus ->
  let now := get_nanotime clock in
  let wr := reschedule_event clock w e in
  let we := enable_timed_event clock w e in
  registry (timed_mem wr) (timed_events (ev_sys wr)) l /\
  registry (timed_mem we) (timed_events (ev_sys we)) l /\
  timed_mem wr e = set_last_call now (timed_mem w e) /\
  timed_mem we e = set_last_call now (set_timed_enabled true (timed_mem w e)) /\
  (forall a, a <> e -> timed_mem wr a = timed_mem w a /\ timed_mem we a = timed_mem w a) /\
  (forall t, is_due (timed_mem we) t e = (now + interval (timed_mem w e) <=? t)) /\
  (forall t, is_due (timed_mem wr) t e
             = enabled (timed_mem w e) && (now + interval (timed_mem w e) <=? t)).
Proof.
  intros Hreg Hpos Hb now wr we.
  assert (Hnow : U64.in_range now) by apply U64Facts.wrap_range.
  assert (Hre : timed_mem wr e = set_last_call now (timed_mem w e)).
  { unfold wr, reschedule_event. cbn [with_timed timed_mem]. apply store_same. }
  assert (Hee : timed_mem we e
                = set_last_call now (set_timed_enabled true (timed_mem w e))).
  { unfold we, enable_timed_event, reschedule_event.
    cbn [with_timed timed_mem]. now rewrite !store_same. }
  assert (Hca : forall ev, interval ev = interval (timed_mem w e) ->
                  continue_at (set_last_call now ev)
                  = now + interval (timed_mem w e)).
  { intros ev Hiv. unfold continue_at, U64.add. cbn [set_last_call last_call interval].
    rewrite Hiv. apply U64Facts.wrap_small. unfold U64.in_range in *. lia. }
  split; [|split; [|split; [|split; [|split; [|split]]]]].
  - unfold wr, reschedule_event. cbn [with_timed timed_mem ev_sys timed_events].
    now apply registry_store_links.
  - unfold we, enable_timed_event, reschedule_event.
    cbn [with_timed timed_mem ev_sys timed_events].
    apply registry_store_links; [now apply registry_store_links| |];
      now rewrite store_same.
  - exact Hre.
  - exact Hee.
  - intros a Ha. unfold wr, we, enable_timed_event, reschedule_event.
    cbn [with_timed timed_mem]. now rewrite !store_other.
  - intros t. unfold is_due. rewrite Hee, Hca by reflexivity. reflexivity.
  - intros t. unfold is_due. rewrite Hre, Hca by reflexivity. reflexivity.
Qed.

Lemma reschedule_restarts_interval_witness :
  let clock := {| ts_sec := 0; ts_nsec := 100 |} in
  is_due (timed_mem (enable_timed_event clock three_timers 1%nat)) 104 1%nat = false /\
  is_due (timed_mem (enable_timed_event clock three_timers 1%nat)) 105 1%nat = true /\
  is_due (timed_mem (reschedule_event clock three_timers 2%nat)) 129 2%nat = false.
Proof.
  intros clock.
  destruct (reschedule_restarts_interval clock three_timers [1; 2; 3]%nat 1%nat
              three_timers_registry ltac:(vm_compute; congruence)
              ltac:(reflexivity))
    as (_ & _ & _ & _ & _ & He & _).
  destruct (reschedule_restarts_interval clock three_timers [1; 2; 3]%nat 2%nat
              three_timers_registry ltac:(vm_compute; congruence)
              ltac:(reflexivity))
    as (_ & _ & _ & _ & _ & _ & Hr).
  rewrite !He, Hr. repeat split.
Defined.

(** ** The fd-event registry, and what registration leaves alone *)

Lemma remove_fd_event_registry (w : world) (l : list addr) (e : addr) :
  registry (fd_mem w) (fd_events (ev_sys w)) l -> In e l ->
  let w' := remove_fd_event w e in
  registry (fd_mem w') (fd_events (ev_sys w')) (List.remove Nat.eq_dec e l).
Proof.
  intros Hreg Hin. unfold remove_fd_event.
  pose proof (linked_list_remove_registry _ _ _ _ Hreg Hin) as Hrem.
  destruct (linked_list_remove (fd_mem w) (fd_events (ev_sys w)) e) as [m ls].
  exact Hrem.
Qed.

Lemma remove_appended (e : addr) (l : list addr) :
  ~ In e l -> List.remove Nat.eq_dec e (l ++ [e]) = l.
Proof.
  intros Hn. rewrite <- (app_nil_r l) at 2.
  now apply (remove_middle e l []).
Qed.

(** X15: [remove_fd_event] detaches a registered fd-event: the walk from
    [first] then visits the other events in their old order, [first] and
    [last] point to the first and last of them, and the timed-event
    registry is not touched. *)
Theorem remove_fd_event_detaches (w : world) (l : list addr) (e : addr) :
  registry (fd_mem w) (fd_events (ev_sys w)) l -> In e l ->
  let w' := remove_fd_event w e in
  let l' := List.remove Nat.eq_dec e l in
  traverse (length l') (fd_mem w') (first (fd_events (ev_sys w'))) = Some l' /\
  first (fd_events (ev_sys w')) = head_or l' None /\
  last (fd_events (ev_sys w')) = last_or l' None /\
  ~ In e l' /\ S (length l') = length l /\
  timed_events (ev_sys w') = timed_events (ev_sys w) /\
  (forall a, timed_mem w' a = timed_mem w a).
Proof.
  intros Hreg Hin w' l'.
  pose proof (remove_fd_event_registry w l e Hreg Hin) as Hreg'.
  fold w' l' in Hreg'.
  split; [now apply registry_traverse with (l := l')|].
  split; [apply Hreg'|]. split; [apply Hreg'|].
  split; [apply remove_In|].
  split; [apply length_remove_registered; [apply Hreg|exact Hin]|].
  unfold w', remove_fd_event.
  destruct (linked_list_remove (fd_mem w) (fd_events (ev_sys w)) e) as [m ls].
  split; reflexivity.
Qed.

Lemma remove_fd_event_detaches_witness :
  traverse 1 (fd_mem (remove_fd_event stopping_watcher 1%nat))
    (first (fd_events (ev_sys (remove_fd_event stopping_watcher 1%nat))))
  = Some [2%nat].
Proof.
  refine (proj1 (remove_fd_event_detaches stopping_watcher [1; 2]%nat 1%nat _ _)).
  - concrete_registry.
  - now left.
Defined.

(** X16: adding an event that is not registered and removing it again
    gives back the registry as it was, for both kinds of event: the same
    events in the same order, with the same [first] and [last]. *)
Theorem add_then_remove_restores_registry (w : world) (lt lf : list addr)
  (e : addr) (opts : Z) :
  registry (timed_mem w) (timed_events (ev_sys w)) lt ->
  registry (fd_mem w) (fd_events (ev_sys w)) lf ->
  let wt := remove_timed_event (add_timed_event w e) e in
  let wf := remove_fd_event (add_fd_event w e opts) e in
  (~ In e lt ->
     registry (timed_mem wt) (timed_events (ev_sys wt)) lt /\
     timed_events (ev_sys wt) = timed_events (ev_sys w)) /\
  (~ In e lf ->
     registry (fd_mem wf) (fd_events (ev_sys wf)) lf /\
     fd_events (ev_sys wf) = fd_events (ev_sys w)).
Proof.
  intros Ht Hf wt wf.
  assert (Hhdr : forall ls ls' l,
            first ls = head_or l None -> last ls = last_or l None ->
            first ls' = head_or l None -> last ls' = last_or l None -> ls' = ls).
  { intros [f1 l1] [f2 l2] l. cbn [first last]. congruence. }
  split; intros Hn.
  - pose proof (add_timed_event_registry w lt e Ht Hn) as Hadd.
    pose proof (remove_timed_event_registry _ _ e Hadd
                  ltac:(apply in_or_app; right; now left)) as Hrem.
    rewrite (remove_appended e lt Hn) in Hrem. fold wt in Hrem.
    split; [exact Hrem|].
    apply (Hhdr _ _ lt); first [apply Ht | apply Hrem].
  - destruct (add_fd_event_registry w lf e opts Hf Hn) as [Hadd _].
    pose proof (remove_fd_event_registry _ _ e Hadd
                  ltac:(apply in_or_app; right; now left)) as Hrem.
    rewrite (remove_appended e lf Hn) in Hrem. fold wf in Hrem.
    split; [exact Hrem|].
    apply (Hhdr _ _ lf); first [apply Hf | apply Hrem].
Qed.

Lemma add_then_remove_restores_registry_witness :
  let wt := remove_timed_event (add_timed_event three_timers 7%nat) 7%nat in
  let wf := remove_fd_event (add_fd_event stopping_watcher 7%nat EV_WRITABLE) 7%nat in
  traverse 8 (timed_mem wt) (first (timed_events (ev_sys wt))) = Some [1; 2; 3]%nat /\
  traverse 8 (fd_mem wf) (first (fd_events (ev_sys wf))) = Some [1; 2]%nat.
Proof.
  intros wt wf. split.
  - apply registry_traverse; [|simpl; lia].
    apply (add_then_remove_restores_registry three_timers [1; 2; 3]%nat []
             7%nat 0 three_timers_registry).
    + now apply no_fd_event_registry.
    + simpl. lia.
  - apply registry_traverse; [|simpl; lia].
    apply (add_then_remove_restores_registry stopping_watcher [] [1; 2]%nat
             7%nat EV_WRITABLE).
    + now apply no_timed_event_registry.
    + concrete_registry.
    + simpl. lia.
Defined.

Ltac crush_stores :=
  unfold store;
  repeat match goal with
         | |- context [Nat.eqb ?a ?b] =>
             let E := fresh "E" in
             destruct (Nat.eqb a b) eqn:E;
             [apply Nat.eqb_eq in E; subst|]
         end;
  try reflexivity.

(** X17: registration only rewrites links.  [add_timed_event] and
    [remove_timed_event] leave the callback, carry data, interval,
    [last_call] and [enabled] of every struct as they were -- in
    particular adding an event does not enable it -- and so do
    [add_fd_event] and [remove_fd_event] for the callback, carry data,
    descriptor and [enabled] of the fd-event structs; [add_fd_event]
    changes the [options] of the added event only. *)
Theorem registration_keeps_payload (w : world) (e a : addr) (opts : Z) :
  timed_payload (timed_mem (add_timed_event w e) a) = timed_payload (timed_mem w a) /\
  timed_payload (timed_mem (remove_timed_event w e) a) = timed_payload (timed_mem w a) /\
  fd_payload (fd_mem (add_fd_event w e opts) a) = fd_payload (fd_mem w a) /\
  fd_payload (fd_mem (remove_fd_event w e) a) = fd_payload (fd_mem w a) /\
  options (fd_mem (remove_fd_event w e) a) = options (fd_mem w a) /\
  options (fd_mem (add_fd_event w e opts) a)
    = (if Nat.eqb a e then opts else options (fd_mem w a)).
Proof.
  split; [|split; [|split; [|split; [|split]]]].
  - unfold add_timed_event, linked_list_add.
    destruct (last (timed_events (ev_sys w))) as [x|];
      cbn [with_timed timed_mem]; crush_stores.
  - unfold remove_timed_event, linked_list_remove. cbn [with_timed timed_mem].
    destruct (prev (timed_mem w e)) as [p|];
      [destruct (next (store (timed_mem w) p
                         (set_next (next (timed_mem w e)) (timed_mem w p)) e))
         as [n|]
      |destruct (next (timed_mem w e)) as [n|]];
      crush_stores.
  - unfold add_fd_event, linked_list_add.
    destruct (last (fd_events (ev_sys w))) as [x|];
      cbn [with_fd fd_mem]; crush_stores.
  - unfold remove_fd_event, linked_list_remove. cbn [with_fd fd_mem].
    destruct (prev (fd_mem w e)) as [p|];
      [destruct (next (store (fd_mem w) p
                         (set_next (next (fd_mem w e)) (fd_mem w p)) e))
         as [n|]
      |destruct (next (fd_mem w e)) as [n|]];
      crush_stores.
  - unfold remove_fd_event, linked_list_remove. cbn [with_fd fd_mem].
    destruct (prev (fd_mem w e)) as [p|];
      [destruct (next (store (fd_mem w) p
                         (set_next (next (fd_mem w e)) (fd_mem w p)) e))
         as [n|]
      |destruct (next (fd_mem w e)) as [n|]];
      crush_stores.
  - unfold add_fd_event, linked_list_add.
    destruct (last (fd_events (ev_sys w))) as [x|];
      cbn [with_fd fd_mem]; crush_stores.
Qed.

(** ** Disabled fd-events, removed timers *)

Lemma firings_In (r w x : fd_set) (m : mem fd_event) (c : addr) (f : fired) :
  In f (firings r w x m c) -> f = FiredFd c /\ enabled (m c) = true.
Proof.
  unfold firings. destruct (enabled (m c)); [|intros []].
  intros Hin. split; [|reflexivity].
  destruct (FD_ISSET (fd (m c)) r), (FD_ISSET (fd (m c)) w),
    (FD_ISSET (fd (m c)) x); simpl in Hin; intuition congruence.
Qed.

(** X19: [disable_fd_event] takes a registered fd-event out of the wait
    and of the dispatch without unregistering it.  On a registry whose
    descriptors are below [INT_MAX] and, for the enabled events, in
    [0, FD_SETSIZE), and with callbacks that return 0 without touching
    the fd-event structs: after [disable_fd_event] the registry is the
    same list; [prepare_fd_sets] puts a descriptor into a set only on
    behalf of another enabled event; and [event_system_sleep], whatever
    [select] reports, returns without having called the disabled event.
    [enable_fd_event] puts the descriptor of a registered event watching
    readability back into the readable set. *)
Theorem fd_event_enable_disable (FD_SETSIZE : Z)
  (invoke : nat -> nat -> world -> world * Z) (fuel : nat) (select : select_fn)
  (time_to_wait : Z) (w : world) (log : list fired) (l : list addr) (e : addr) :
  registry (fd_mem w) (fd_events (ev_sys w)) l -> (length l <= fuel)%nat ->
  no_nfds_overflow (fd_mem w) l ->
  enabled_descriptors_valid FD_SETSIZE (fd_mem w) l ->
  let wd := disable_fd_event w e in
  let we := enable_fd_event w e in
  (forall c, In c l -> keeps_going invoke (fd_mem wd) c) ->
  registry (fd_mem wd) (fd_events (ev_sys wd)) l /\
  registry (fd_mem we) (fd_events (ev_sys we)) l /\
  (exists r wr x,
     prepare_fd_sets fuel (fd_mem wd) (fd_events (ev_sys wd)) = Some (r, wr, x) /\
     forall d,
       (FD_ISSET d r = true <->
        exists c, In c l /\ c <> e /\ enabled (fd_mem w c) = true /\
                  fd (fd_mem w c) = d /\
                  watches (fd_mem w c) EV_READABLE = true) /\
       (FD_ISSET d wr = true <->
        exists c, In c l /\ c <> e /\ enabled (fd_mem w c) = true /\
                  fd (fd_mem w c) = d /\
                  watches (fd_mem w c) EV_WRITABLE = true) /\
       (FD_ISSET d x = true <->
        exists c, In c l /\ c <> e /\ enabled (fd_mem w c) = true /\
                  fd (fd_mem w c) = d /\
                  watches (fd_mem w c) EV_EXCEPTIONAL = true)) /\
  (exists world' called result,
     event_system_sleep FD_SETSIZE invoke fuel select time_to_wait (wd, log)
     = Some ((world', log ++ called), result) /\
     ~ In (FiredFd e) called) /\
  (In e l -> 0 <= fd (fd_mem w e) < FD_SETSIZE ->
   watches (fd_mem w e) EV_READABLE = true ->
   exists r wr x,
     prepare_fd_sets fuel (fd_mem we) (fd_events (ev_sys we)) = Some (r, wr, x) /\
     FD_ISSET (fd (fd_mem w e)) r = true).
Proof.
  intros Hreg Hlen Hrange Hvalid wd we Hk.
  assert (Hd : registry (fd_mem wd) (fd_events (ev_sys wd)) l).
  { unfold wd, disable_fd_event. cbn [with_fd fd_mem ev_sys fd_events].
    now apply registry_store_links. }
  assert (He : registry (fd_mem we) (fd_events (ev_sys we)) l).
  { unfold we, enable_fd_event. cbn [with_fd fd_mem ev_sys fd_events].
    now apply registry_store_links. }
  assert (Hde : fd_mem wd e = set_fd_enabled false (fd_mem w e)) by apply store_same.
  assert (Hdo : forall a, a <> e -> fd_mem wd a = fd_mem w a).
  { intros a Ha. now apply store_other. }
  assert (Hee : fd_mem we e = set_fd_enabled true (fd_mem w e)) by apply store_same.
  assert (Heo : forall a, a <> e -> fd_mem we a = fd_mem w a).
  { intros a Ha. now apply store_other. }
  assert (Hvd : enabled_descriptors_valid FD_SETSIZE (fd_mem wd) l).
  { intros c Hc Hen. destruct (Nat.eq_dec c e) as [->|Hne].
    - rewrite Hde in Hen. discriminate.
    - rewrite (Hdo c Hne) in *. now apply Hvalid. }
  split; [exact Hd|]. split; [exact He|]. split; [|split].
  - destruct (prepare_fd_sets_exact FD_SETSIZE _ _ l fuel Hd Hlen Hvd)
      as (r & wr & x & Hp & Hall).
    exists r, wr, x. split; [exact Hp|].
    assert (Hother : forall kind d,
              (exists c, In c l /\ enabled (fd_mem wd c) = true /\
                         fd (fd_mem wd c) = d /\
                         watches (fd_mem wd c) kind = true) <->
              (exists c, In c l /\ c <> e /\ enabled (fd_mem w c) = true /\
                         fd (fd_mem w c) = d /\
                         watches (fd_mem w c) kind = true)).
    { intros kind d. split.
      - intros (c & Hc & Hen & Hfd & Hw).
        assert (Hne : c <> e) by (intros ->; rewrite Hde in Hen; discriminate).
        rewrite (Hdo c Hne) in *. exists c. auto.
      - intros (c & Hc & Hne & Hen & Hfd & Hw). exists c.
        rewrite (Hdo c Hne). auto. }
    intros d. destruct (Hall d) as (Hr & Hw & Hx).
    rewrite Hr, Hw, Hx. repeat split; apply Hother.
  - assert (Hnil : exists world' called result,
              Some ((wd, log), -1) = Some ((world', log ++ called), result) /\
              ~ In (FiredFd e) called).
    { exists wd, [], (-1). rewrite app_nil_r. split; [reflexivity|intros []]. }
    unfold event_system_sleep. cbn [fst].
    rewrite (get_max_nfds_registry _ _ l) by assumption.
    destruct (FD_SETSIZE <=? _); [exact Hnil|].
    destruct (prepare_fd_sets_registry _ _ l fuel Hd Hlen) as [[[r wr] x] ->].
    destruct (select _ r wr x _) as [res [[r' wr'] x']].
    destruct (res =? -1); [exact Hnil|].
    destruct Hd as (_ & Hf & _ & Hc). rewrite Hf.
    destruct (handle_fd_events_keep_going invoke (fd_mem wd) r' wr' x' l None
                fuel (wd, log) ltac:(reflexivity) Hc Hlen Hk)
      as (world' & -> & _).
    exists world', (flat_map (firings r' wr' x' (fd_mem wd)) l), res.
    split; [reflexivity|].
    intros Hin. apply in_flat_map in Hin as (c & _ & Hfc).
    apply firings_In in Hfc as [Heq Hen]. injection Heq as <-.
    rewrite Hde in Hen. discriminate.
  - intros Hin Hfd Hw.
    assert (Hve : enabled_descriptors_valid FD_SETSIZE (fd_mem we) l).
    { intros c Hc Hen. destruct (Nat.eq_dec c e) as [->|Hne].
      - rewrite Hee. exact Hfd.
      - rewrite (Heo c Hne) in *. now apply Hvalid. }
    destruct (prepare_fd_sets_exact FD_SETSIZE _ _ l fuel He Hlen Hve)
      as (r & wr & x & Hp & Hall).
    exists r, wr, x. split; [exact Hp|].
    apply (Hall (fd (fd_mem w e))). exists e. rewrite Hee. auto.
Qed.

Lemma shared_descriptor_registry :
  registry (fd_mem shared_descriptor) (fd_events (ev_sys shared_descriptor))
    [1; 2]%nat.
Proof. concrete_registry. Qed.

Lemma fd_event_enable_disable_witness :
  exists world' called result,
    event_system_sleep 1024 returns_own_pointer 8
      (posix_select readable_and_writable) 100
      (disable_fd_event shared_descriptor 1%nat, [])
    = Some ((world', [] ++ called), result) /\
    ~ In (FiredFd 1%nat) called.
Proof.
  refine (proj1 (proj2 (proj2 (proj2
    (fd_event_enable_disable 1024 returns_own_pointer 8
       (posix_select readable_and_writable) 100 shared_descriptor []
       [1; 2]%nat 1%nat shared_descriptor_registry _ _ _ _))))).
  - simpl. lia.
  - intros c [<- | [<- | []]]; reflexivity.
  - intros c [<- | [<- | []]] Hen; vm_compute; split; congruence.
  - intros c [<- | [<- | []]] v; split; reflexivity.
Defined.

(** X20: a removed timed event is never selected.  After
    [remove_timed_event] of a registered event the scheduler returns a
    result at every time, and its candidate is one of the events that
    are still registered, not the removed one. *)
Theorem removed_timer_is_never_selected (w : world) (l : list addr)
  (fuel : nat) (now : Z) (e : addr) :
  registry (timed_mem w) (timed_events (ev_sys w)) l -> In e l ->
  (length l <= fuel)%nat -> 0 <= now ->
  let w' := remove_timed_event w e in
  exists wait cand,
    calc_next_timed_event fuel (timed_mem w') (timed_events (ev_sys w')) now
      = Some (wait, cand) /\
    cand <> Some e /\
    (forall c, cand = Some c -> In c l /\ c <> e).
Proof.
  intros Hreg Hin Hlen Hnow w'.
  pose proof (remove_timed_event_registry w l e Hreg Hin) as Hreg'. fold w' in Hreg'.
  assert (Hlen' : (length (List.remove Nat.eq_dec e l) <= fuel)%nat).
  { pose proof (length_remove_registered e l (proj1 Hreg) Hin). lia. }
  assert (Hcand : forall wait c,
            calc_next_timed_event fuel (timed_mem w') (timed_events (ev_sys w')) now
              = Some (wait, Some c) -> In c l /\ c <> e).
  { intros wait c Hc.
    destruct (calc_candidate _ _ _ fuel now wait c Hreg' Hlen' Hnow Hc) as (Hc' & _).
    apply in_remove in Hc'. exact Hc'. }
  destruct (calc_next_timed_event fuel (timed_mem w') (timed_events (ev_sys w')) now)
    as [[wait cand]|] eqn:Hcalc.
  - exists wait, cand. split; [reflexivity|]. split.
    + intros ->. destruct (Hcand wait e eq_refl) as [_ Hne]. now apply Hne.
    + intros c ->. now apply (Hcand wait).
  - rewrite (calc_next_timed_event_fold _ _ _ fuel now Hreg' Hlen') in Hcalc.
    discriminate.
Qed.

Lemma removed_timer_is_never_selected_witness :
  exists wait cand,
    calc_next_timed_event 8 (timed_mem (remove_timed_event three_timers 3%nat))
      (timed_events (ev_sys (remove_timed_event three_timers 3%nat))) 25
      = Some (wait, cand) /\
    cand <> Some 3%nat /\
    (forall c, cand = Some c -> In c [1; 2; 3]%nat /\ c <> 3%nat).
Proof.
  apply (removed_timer_is_never_selected three_timers [1; 2; 3]%nat 8 25 3%nat
           three_timers_registry).
  - simpl. tauto.
  - simpl. lia.
  - lia.
Defined.
